(** * The malformed-assignment repair pass of [fix_malformed_assignments.py]

    A shallow embedding of [fix_malformed_assignments_in_file] and of the
    driver loop of [main], together with the properties of the scanner
    that the specification states.

    Text is modelled with [string]: a character is a code point in the
    range 0..255 (ASCII and the Latin-1 supplement), and the predicates
    of Python's [str] are given on that range. *)

From Stdlib Require Import Ascii String Lia Bool Arith.
From stdpp Require Import base tactics option list strings gmap.

Local Open Scope nat_scope.

(** ** Python's [str] operations used by the script *)

Module PyStr.

(** [ord(c)] *)
Definition ord (c : ascii) : nat := nat_of_ascii c.

Definition in_range (lo hi c : ascii) : bool :=
  (ord lo <=? ord c) && (ord c <=? ord hi).

(** [c.isspace()], which is also the class [\s] of a [str] pattern:
    TAB LF VT FF CR, FS GS RS US, SPACE, NEL and NBSP. *)
Definition isspace (c : ascii) : bool :=
  in_range "009" "013" c || in_range "028" "032" c
  || Ascii.eqb c "133" || Ascii.eqb c "160".

(** The class [[a-zA-Z_]]. *)
Definition ident_start (c : ascii) : bool :=
  in_range "a" "z" c || in_range "A" "Z" c || Ascii.eqb c "_".

(** The class [[a-zA-Z0-9_]]. *)
Definition ident_char (c : ascii) : bool :=
  in_range "a" "z" c || in_range "A" "Z" c || in_range "0" "9" c
  || Ascii.eqb c "_".

(** [c.isalnum()] for one character: the ASCII letters and digits, and in
    the Latin-1 supplement the letters (170, 181, 186, 192..214, 216..246,
    248..255), the superscript digits (178, 179, 185) and the vulgar
    fractions (188..190). *)
Definition isalnum_char (c : ascii) : bool :=
  in_range "0" "9" c || in_range "A" "Z" c || in_range "a" "z" c
  || Ascii.eqb c "170" || in_range "178" "179" c || Ascii.eqb c "181"
  || in_range "185" "186" c || in_range "188" "190" c
  || in_range "192" "214" c || in_range "216" "246" c
  || in_range "248" "255" c.

(** The one-character strings that cannot be written inside a literal. *)
Definition NL : string := String "010" "".
Definition DQ : string := String "034" "".

(** [s.lstrip()] *)
Fixpoint lstrip (s : string) : string :=
  match s with
  | String c r => if isspace c then lstrip r else s
  | EmptyString => EmptyString
  end.

(** [s.rstrip()]: a character is dropped when it is white space and
    everything after it is dropped too. *)
Fixpoint rstrip (s : string) : string :=
  match s with
  | String c r =>
      match rstrip r with
      | EmptyString => if isspace c then EmptyString else String c EmptyString
      | r' => String c r'
      end
  | EmptyString => EmptyString
  end.

(** [s.strip()] *)
Definition strip (s : string) : string := rstrip (lstrip s).

(** [s.startswith(p)] *)
Fixpoint startswith (s p : string) {struct p} : bool :=
  match p, s with
  | EmptyString, _ => true
  | String a p', String b s' => Ascii.eqb a b && startswith s' p'
  | String _ _, EmptyString => false
  end.

(** [c in s] for a one-character [c] *)
Fixpoint contains (c : ascii) (s : string) : bool :=
  match s with
  | String b r => Ascii.eqb c b || contains c r
  | EmptyString => false
  end.

(** [s.replace(c, '')] for a one-character [c] *)
Fixpoint remove_char (c : ascii) (s : string) : string :=
  match s with
  | String b r => if Ascii.eqb c b then remove_char c r
                  else String b (remove_char c r)
  | EmptyString => EmptyString
  end.

Fixpoint all_chars (p : ascii -> bool) (s : string) : bool :=
  match s with
  | String b r => p b && all_chars p r
  | EmptyString => true
  end.

(** [s.isalnum()]: false on the empty string. *)
Definition isalnum (s : string) : bool :=
  match s with
  | EmptyString => false
  | String _ _ => all_chars isalnum_char s
  end.

(** [bool(s)]: a string is true when it is not empty. *)
Definition truthy (s : string) : bool :=
  match s with EmptyString => false | String _ _ => true end.

End PyStr.

(** ** The regular expressions of the script

    Each pattern is matched with [re.match], that is, at the start of the
    string.  In all four the character classes of adjacent pieces are
    disjoint (white space, identifier characters, [=], [+], [[]), so the
    backtracking search of [re] has at most one way to split the string
    and the matchers below take each starred piece as long as possible.
    In the comments a space is written between a star and a closing
    parenthesis of a pattern; the patterns of the script have none. *)

Module Re.
Import PyStr.

(** The longest prefix of [s] whose characters satisfy [p], and the rest. *)
Fixpoint span (p : ascii -> bool) (s : string) : string * string :=
  match s with
  | String c r =>
      if p c then let '(a, b) := span p r in (String c a, b)
      else (EmptyString, s)
  | EmptyString => (EmptyString, EmptyString)
  end.

(** [[a-zA-Z_][a-zA-Z0-9_]*] at the start of [s]: the identifier and what
    follows it. *)
Definition identifier (s : string) : option (string * string) :=
  match s with
  | String c r =>
      if ident_start c
      then let '(a, b) := span ident_char r in Some (String c a, b)
      else None
  | EmptyString => None
  end.

(** [c] at the start of [s], and what follows it. *)
Definition expect (c : ascii) (s : string) : option string :=
  match s with
  | String b r => if Ascii.eqb b c then Some r else None
  | EmptyString => None
  end.

(** [\s*$] on the rest of a string: [$] holds at the end of the string and
    before a newline that ends it, and a newline is white space, so the
    rest matches exactly when it is white space only. *)
Definition blank_to_end (s : string) : bool := all_chars isspace s.

(** [^(\s* )([a-zA-Z_][a-zA-Z0-9_]* )\s*=\s*\[\s*$], with groups 1 and 2
    (lines 35, 49, 75, 90 and 138). *)
Definition match_array_open (line : string) : option (string * string) :=
  let '(indent, r0) := span isspace line in
  match identifier r0 with
  | Some (var_name, r1) =>
      match expect "=" (lstrip r1) with
      | Some r2 =>
          match expect "[" (lstrip r2) with
          | Some r3 =>
              if blank_to_end r3 then Some (indent, var_name) else None
          | None => None
          end
      | None => None
      end
  | None => None
  end.

(** [^(\s* )([a-zA-Z_][a-zA-Z0-9_]* )\s*=\s*$], with groups 1 and 2
    (lines 141 and 143). *)
Definition match_incomplete (line : string) : option (string * string) :=
  let '(indent, r0) := span isspace line in
  match identifier r0 with
  | Some (var_name, r1) =>
      match expect "=" (lstrip r1) with
      | Some r2 => if blank_to_end r2 then Some (indent, var_name) else None
      | None => None
      end
  | None => None
  end.

(** [^[a-zA-Z_][a-zA-Z0-9_]*\s*=] (lines 46 and 86). *)
Definition match_assignment (s : string) : bool :=
  match identifier s with
  | Some (_, r1) => startswith (lstrip r1) "="
  | None => false
  end.

(** [^[a-zA-Z_][a-zA-Z0-9_]*\s*[=+]] (line 129). *)
Definition match_assignment_or_plus (s : string) : bool :=
  match identifier s with
  | Some (_, r1) => startswith (lstrip r1) "=" || startswith (lstrip r1) "+"
  | None => false
  end.

End Re.

(** ** The scanner: the [while] loop of [fix_malformed_assignments_in_file] *)

Module Scanner.
Import PyStr Re.

(** What the script prints, one constructor per [print] call of the file:
    - [FixedArray v]: "  Fixed malformed array assignment: v" (line 65)
    - [FixedCommentedArray v]: "  Fixed malformed commented array
      assignment: v" (line 117)
    - [FixedDangling v]: "  Fixed dangling expression for: v" (line 160)
    - [ErrorReading p], [ErrorWriting p]: lines 21 and 173 (the text of the
      exception is left out)
    - [FixedFile p], [NothingFound p]: lines 170 and 176
    - [Checking p], [Found n], [Complete n]: lines 203, 199 and 207. *)
Inductive message : Type :=
  | FixedArray (var_name : string)
  | FixedCommentedArray (var_name : string)
  | FixedDangling (var_name : string)
  | ErrorReading (file_path : string)
  | ErrorWriting (file_path : string)
  | FixedFile (file_path : string)
  | NothingFound (file_path : string)
  | Checking (file_path : string)
  | Found (n : nat)
  | Complete (n : nat).

(** The variables of the loop, and what it has printed so far. *)
Record state : Type := State {
  i : nat;
  new_lines : list string;
  modified : bool;
  printed : list message
}.

(** Lines 24 to 26. *)
Definition initial : state :=
  {| i := 0; new_lines := []; modified := false; printed := [] |}.

(** The exceptions the loop body can raise. *)
Inductive exn : Type := IndexError.

Inductive outcome (A : Type) : Type :=
  | Ok (a : A)
  | Raise (e : exn)
  | OutOfFuel.
Arguments Ok {A} a.
Arguments Raise {A} e.
Arguments OutOfFuel {A}.

(** The marker comment of line 73. *)
Definition MARKER : string :=
  "# Initialize as empty array since Brave components have been removed".

(** The test on [dangling_line] of lines 42 to 46 and 82 to 86. *)
Definition dangling_ok (dangling_line : string) : bool :=
  truthy dangling_line
  && negb (startswith dangling_line "#")
  && negb (startswith dangling_line "if")
  && negb (startswith dangling_line "foreach")
  && negb (match_assignment dangling_line).

(** The f-strings [f"{indent}{var_name} = {value}\n"] and [f"\"{value}\""]. *)
Definition assignment (indent var_name value : string) : string :=
  indent +:+ var_name +:+ " = " +:+ value +:+ NL.

Definition quoted (value : string) : string := DQ +:+ value +:+ DQ.

(** Lines 55 to 60 and 152 to 156: the value of Patterns 1 and 3. *)
Definition value_direct_or_quoted (v : string) : string :=
  if startswith v "[" || startswith v DQ then v else quoted v.

(** [any(char in dangling_line for char in ['+', '(', ')', '$', '/'])] *)
Definition has_expression_char (v : string) : bool :=
  existsb (fun c => contains c v)
          ["+"%char; "("%char; ")"%char; "$"%char; "/"%char].

(** Lines 96 to 112: the value of Pattern 2. *)
Definition value_commented (v : string) : string :=
  if startswith v DQ || startswith v "[" then
    if startswith v "[" then v else "[ " +:+ v +:+ " ]"
  else
    if has_expression_char v
       || isalnum (remove_char "." (remove_char "_" v))
    then v else quoted v.

(** Pattern 1 at index [k], lines 35 to 66: the line to append and the
    variable name, when the pattern fires.  [lines !! n = Some l] stands
    for [n < len(lines)] followed by the read of [lines[n]]; the pattern
    of line 49 is the one of line 35, so it is matched once. *)
Definition pattern1 (lines : list string) (k : nat) (line : string)
  : option (string * string) :=
  match match_array_open line with
  | Some (indent, var_name) =>
      match lines !! (k + 1) with
      | Some closer =>
          if String.eqb (strip closer) "]" then
            match lines !! (k + 2) with
            | Some l2 =>
                let dangling_line := strip l2 in
                if dangling_ok dangling_line then
                  Some (assignment indent var_name
                          (value_direct_or_quoted dangling_line), var_name)
                else None
            | None => None
            end
          else None
      | None => None
      end
  | None => None
  end.

(** Pattern 2 at index [k], lines 73 to 118. *)
Definition pattern2 (lines : list string) (k : nat) (line : string)
  : option (string * string) :=
  if startswith (strip line) MARKER then
    match lines !! (k + 1) with
    | Some assignment_line =>
        match match_array_open assignment_line with
        | Some (indent, var_name) =>
            match lines !! (k + 2) with
            | Some closer =>
                if String.eqb (strip closer) "]" then
                  match lines !! (k + 3) with
                  | Some l3 =>
                      let dangling_line := strip l3 in
                      if dangling_ok dangling_line then
                        Some (assignment indent var_name
                                (value_commented dangling_line), var_name)
                      else None
                  | None => None
                  end
                else None
            | None => None
            end
        | None => None
        end
    | None => None
    end
  else None.

(** The test on [stripped] of lines 122 to 129, without [i > 0]. *)
Definition expression_ok (stripped : string) : bool :=
  truthy stripped
  && negb (startswith stripped "#")
  && negb (startswith stripped "if")
  && negb (startswith stripped "foreach")
  && negb (startswith stripped "declare_args")
  && negb (startswith stripped "}")
  && negb (startswith stripped "{")
  && negb (match_assignment_or_plus stripped).

(** Pattern 3 at index [k], lines 121 to 161, up to the [pop]: the line to
    append and the variable name, when the pattern fires.  The branch of
    line 134 only reads [lines] in its loop and changes nothing, so the
    line is then copied like any other. *)
Definition pattern3 (lines : list string) (k : nat) (line : string)
  : option (string * string) :=
  let stripped := strip line in
  if expression_ok stripped && (0 <? k) then
    match lines !! (k - 1) with
    | Some before =>
        let prev_line := strip before in
        if String.eqb prev_line "]" && (1 <? k) then None
        else
          match match_incomplete prev_line with
          | Some (indent, var_name) =>
              Some (assignment indent var_name
                      (value_direct_or_quoted stripped), var_name)
          | None => None
          end
    | None => None
    end
  else None.

(** [new_lines.pop()]: the list without its last element; it raises
    [IndexError] on the empty list. *)
Definition pop (l : list string) : outcome (list string) :=
  match l with
  | [] => Raise IndexError
  | _ :: _ => Ok (removelast l)
  end.

(** One pass through the body of the [while] loop, lines 29 to 164. *)
Definition loop_body (lines : list string) (st : state) : outcome state :=
  match lines !! i st with
  | None => Raise IndexError
  | Some line =>
      match pattern1 lines (i st) line with
      | Some (out, var_name) =>
          Ok {| i := i st + 3;
                new_lines := new_lines st ++ [out];
                modified := true;
                printed := printed st ++ [FixedArray var_name] |}
      | None =>
      match pattern2 lines (i st) line with
      | Some (out, var_name) =>
          Ok {| i := i st + 4;
                new_lines := new_lines st ++ [out];
                modified := true;
                printed := printed st ++ [FixedCommentedArray var_name] |}
      | None =>
      match pattern3 lines (i st) line with
      | Some (out, var_name) =>
          match pop (new_lines st) with
          | Ok popped =>
              Ok {| i := i st + 1;
                    new_lines := popped ++ [out];
                    modified := true;
                    printed := printed st ++ [FixedDangling var_name] |}
          | Raise e => Raise e
          | OutOfFuel => OutOfFuel
          end
      | None =>
          Ok {| i := i st + 1;
                new_lines := new_lines st ++ [line];
                modified := modified st;
                printed := printed st |}
      end end end
  end.

(** The [while i < len(lines)] loop.  Every pass advances [i], so
    [length lines] passes are enough (see [while_loop_returns]). *)
Fixpoint while_loop (fuel : nat) (lines : list string) (st : state)
  : outcome state :=
  if i st <? length lines then
    match fuel with
    | 0 => OutOfFuel
    | S fuel' =>
        match loop_body lines st with
        | Ok st' => while_loop fuel' lines st'
        | Raise e => Raise e
        | OutOfFuel => OutOfFuel
        end
    end
  else Ok st.

(** Lines 24 to 164: the scan of the lines of one file. *)
Definition scan (lines : list string) : outcome state :=
  while_loop (length lines) lines initial.

End Scanner.

(** ** Files: reading, writing and the driver loop of [main] *)

Module Files.
Import PyStr Scanner.

(** Text mode with [newline=None]: on reading, ["\r\n"] and a lone ["\r"]
    become ["\n"]. *)
Fixpoint universal_newlines (s : string) : string :=
  match s with
  | String c r =>
      if Ascii.eqb c "013" then
        match r with
        | String d r' =>
            if Ascii.eqb d "010" then String "010" (universal_newlines r')
            else String "010" (universal_newlines r)
        | EmptyString => String "010" EmptyString
        end
      else String c (universal_newlines r)
  | EmptyString => EmptyString
  end.

(** The lines of a text, each with its ["\n"]; the last one has none when
    the text does not end with one. *)
Fixpoint split_lines (s : string) : list string :=
  match s with
  | String c r =>
      if Ascii.eqb c "010" then String c EmptyString :: split_lines r
      else
        match split_lines r with
        | l :: ls => String c l :: ls
        | [] => [String c EmptyString]
        end
  | EmptyString => []
  end.

(** [f.readlines()] on the decoded text of a file. *)
Definition readlines (text : string) : list string :=
  split_lines (universal_newlines text).

(** The text [f.writelines(new_lines)] writes (on a system whose line
    separator is ["\n"]). *)
Definition writelines (new_lines : list string) : string :=
  foldr String.append EmptyString new_lines.

(** A file: its decoded text, [None] when opening or decoding it raises,
    and whether it can be opened for writing. *)
Record file : Type := File {
  text : option string;
  writable : bool
}.

(** The files by path, and what has been printed. *)
Record world : Type := World {
  disk : gmap string file;
  stdout : list message
}.

Definition print (ms : list message) (w : world) : world :=
  {| disk := disk w; stdout := stdout w ++ ms |}.

(** Lines 17 to 22: the lines of the file, or [None] when the read raises
    (the file is missing, unreadable or not UTF-8). *)
Definition read_file (file_path : string) (w : world) : option (list string) :=
  match disk w !! file_path with
  | Some f => readlines <$> text f
  | None => None
  end.

(** Lines 167 to 169: the disk after a write that succeeds, [None] when
    opening the file for writing raises; the disk is then as it was. *)
Definition write_file (file_path : string) (new_lines : list string)
    (w : world) : option (gmap string file) :=
  match disk w !! file_path with
  | Some f =>
      if writable f
      then Some (<[file_path :=
                   {| text := Some (writelines new_lines);
                      writable := true |}]> (disk w))
      else None
  | None => None
  end.

(** [fix_malformed_assignments_in_file(file_path)], lines 15 to 177: the
    value returned and the world after the call. *)
Definition fix_malformed_assignments_in_file (file_path : string)
    (w : world) : outcome (bool * world) :=
  match read_file file_path w with
  | None => Ok (false, print [ErrorReading file_path] w)
  | Some lines =>
      match scan lines with
      | Ok st =>
          let w1 := print (printed st) w in
          if modified st then
            match write_file file_path (new_lines st) w1 with
            | Some d =>
                Ok (true, {| disk := d;
                             stdout := stdout w1 ++ [FixedFile file_path] |})
            | None => Ok (false, print [ErrorWriting file_path] w1)
            end
          else Ok (false, print [NothingFound file_path] w1)
      | Raise e => Raise e
      | OutOfFuel => OutOfFuel
      end
  end.

(** The [for] loop of [main], lines 201 to 205, over the paths that
    [find_gni_files] returned. *)
Fixpoint for_each_file (gni_files : list string) (modified_count : nat)
    (w : world) : outcome (nat * world) :=
  match gni_files with
  | [] => Ok (modified_count, w)
  | file_path :: rest =>
      match fix_malformed_assignments_in_file file_path
              (print [Checking file_path] w) with
      | Ok (true, w') => for_each_file rest (modified_count + 1) w'
      | Ok (false, w') => for_each_file rest modified_count w'
      | Raise e => Raise e
      | OutOfFuel => OutOfFuel
      end
  end.

(** [main], lines 198 to 207, once [gni_files] is known. *)
Definition main (gni_files : list string) (w : world)
  : outcome (nat * world) :=
  match for_each_file gni_files 0 (print [Found (length gni_files)] w) with
  | Ok (modified_count, w') =>
      Ok (modified_count, print [Complete modified_count] w')
  | Raise e => Raise e
  | OutOfFuel => OutOfFuel
  end.

End Files.

(** ** Notions used in the statements *)

Module Notions.
Import PyStr Re Scanner.

(** The states the loop goes through on [lines]. *)
Inductive reachable (lines : list string) : state -> Prop :=
  | reachable_initial : reachable lines initial
  | reachable_step st st' :
      reachable lines st ->
      i st < length lines ->
      loop_body lines st = Ok st' ->
      reachable lines st'.


(** [covers block out]: the consecutive input lines [block] are answered by
    the one output line [out]: a line copied as it is, or the lines one
    pattern takes and the assignment it writes for them. *)
Inductive covers : list string -> string -> Prop :=
  | covers_copy line : covers [line] line
  | covers_pattern1 opener closer l2 indent var_name :
      match_array_open opener = Some (indent, var_name) ->
      strip closer = "]" ->
      dangling_ok (strip l2) = true ->
      covers [opener; closer; l2]
             (assignment indent var_name (value_direct_or_quoted (strip l2)))
  | covers_pattern2 marker opener closer l3 indent var_name :
      startswith (strip marker) MARKER = true ->
      match_array_open opener = Some (indent, var_name) ->
      strip closer = "]" ->
      dangling_ok (strip l3) = true ->
      covers [marker; opener; closer; l3]
             (assignment indent var_name (value_commented (strip l3)))
  | covers_pattern3 before line indent var_name :
      match_incomplete (strip before) = Some (indent, var_name) ->
      expression_ok (strip line) = true ->
      covers [before; line]
             (assignment indent var_name (value_direct_or_quoted (strip line))).

(** [accounted lines out]: [lines] is cut into consecutive blocks and [out]
    has one line per block, in the same order. *)
Inductive accounted : list string -> list string -> Prop :=
  | accounted_nil : accounted [] []
  | accounted_snoc lines out block line :
      accounted lines out ->
      covers block line ->
      accounted (lines ++ block) (out ++ [line]).

(** White space only. *)
Definition blank (s : string) : Prop := all_chars isspace s = true.

(** A letter or an underscore, then letters, digits and underscores. *)
Definition is_identifier (v : string) : Prop :=
  exists c r, v = String c r /\ ident_start c = true
              /\ all_chars ident_char r = true.

(** What the four patterns of the script say, read as descriptions of a
    string: white space, an identifier, white space, [=], and then white
    space, [[] and white space to the end, or white space to the end, or
    anything. *)
Definition array_open_shape (line indent var_name : string) : Prop :=
  exists ws1 ws2 ws3,
    line = indent +:+ var_name +:+ ws1 +:+ "=" +:+ ws2 +:+ "[" +:+ ws3
    /\ blank indent /\ is_identifier var_name
    /\ blank ws1 /\ blank ws2 /\ blank ws3.

Definition incomplete_shape (line indent var_name : string) : Prop :=
  exists ws1 ws2,
    line = indent +:+ var_name +:+ ws1 +:+ "=" +:+ ws2
    /\ blank indent /\ is_identifier var_name /\ blank ws1 /\ blank ws2.

Definition assignment_shape (s : string) : Prop :=
  exists var_name ws rest,
    s = var_name +:+ ws +:+ "=" +:+ rest
    /\ is_identifier var_name /\ blank ws.

Definition assignment_or_plus_shape (s : string) : Prop :=
  exists var_name ws op rest,
    s = var_name +:+ ws +:+ String op rest
    /\ is_identifier var_name /\ blank ws
    /\ (op = "="%char \/ op = "+"%char).

(** [rest] does not go on with a character of the class [p]. *)
Definition stops (p : ascii -> bool) (rest : string) : Prop :=
  match rest with
  | String c _ => p c = false
  | EmptyString => True
  end.

(** No pattern that fires before [k] takes the line at [k]. *)
Definition not_taken (lines : list string) (k : nat) : Prop :=
  forall j line out v,
    lines !! j = Some line ->
    (pattern1 lines j line = Some (out, v) -> ~ (j < k < j + 3))
    /\ (pattern2 lines j line = Some (out, v) -> ~ (j < k < j + 4)).

Fixpoint any_char (p : ascii -> bool) (s : string) : bool :=
  match s with
  | String b r => p b || any_char p r
  | EmptyString => false
  end.

(** In the words of the specification: a value made of alphanumeric
    characters, underscores and dots, with an alphanumeric character in
    it. *)
Definition alnum_with_underscores_dots (v : string) : bool :=
  all_chars (fun c => isalnum_char c || Ascii.eqb c "_" || Ascii.eqb c ".") v
  && any_char isalnum_char v.

(** In the words of the specification: a value that contains [+], [(],
    [)], [$] or [/]. *)
Definition expression_like (v : string) : bool :=
  any_char (fun c => Ascii.eqb c "+" || Ascii.eqb c "(" || Ascii.eqb c ")"
                     || Ascii.eqb c "$" || Ascii.eqb c "/") v.

(** The value of Pattern B in the words of the specification: a bracketed
    value as it is, a quoted value in a one-element array, an expression
    or a reference as it is, anything else in double quotes. *)
Definition classify_commented (v : string) : string :=
  if startswith v "[" then v
  else if startswith v DQ then "[ " +:+ v +:+ " ]"
  else if expression_like v || alnum_with_underscores_dots v then v
  else quoted v.

End Notions.

(** ** The invariant of the loop *)

Module Invariant.
Import PyStr Re Scanner Notions.

(** What holds of the variables whenever the loop test is evaluated. *)
Record invariant (lines : list string) (st : state) : Prop := {
  inv_bound : i st <= length lines;
  inv_accounted : accounted (take (i st) lines) (new_lines st);
  inv_unmodified : modified st = false -> new_lines st = take (i st) lines;
  inv_modified : modified st = true <-> printed st <> [];
  inv_last : forall before,
    0 < i st ->
    lines !! (i st - 1) = Some before ->
    is_Some (match_incomplete (strip before)) ->
    exists popped,
      new_lines st = popped ++ [before]
      /\ accounted (take (i st - 1) lines) popped
}.

End Invariant.

(** ** Inputs used as examples *)

Module Examples.
Import PyStr Scanner Files.

(** An indented array opener, its closer and a dangling value. *)
Definition indented_array : list string :=
  ["  y = [" +:+ NL; "]" +:+ NL; "bar baz" +:+ NL].


(** The same after the marker comment; the dangling value is quoted. *)
Definition commented_array : list string :=
  ["  " +:+ MARKER +:+ NL; "  deps = [" +:+ NL; "  ]" +:+ NL;
   "    " +:+ DQ +:+ "//base" +:+ DQ +:+ NL].

(** An incomplete assignment, indented, and its value on the next line. *)
Definition incomplete_assignment : list string :=
  ["  z =" +:+ NL; "    some value" +:+ NL].

(** The state of the loop after the first line of [incomplete_assignment]
    has been copied. *)
Definition after_incomplete : state :=
  {| i := 1; new_lines := ["  z =" +:+ NL]; modified := false;
     printed := [] |}.




End Examples.

(** ** Running the script twice on one file *)

Module Twice.
Import PyStr Scanner Files Examples.


End Twice.

(** ** Counting lines *)

Module Counting.
Import PyStr Scanner.

(** The input lines a fix takes beyond the one line it writes: Pattern 1
    writes one line for three, Pattern 2 one for four, Pattern 3 one for
    two. *)
Definition lines_saved (m : message) : nat :=
  match m with
  | FixedArray _ => 2
  | FixedCommentedArray _ => 3
  | FixedDangling _ => 1
  | _ => 0
  end.

Definition saved (ms : list message) : nat :=
  foldr (fun m n => lines_saved m + n) 0 ms.

End Counting.

(** ** The lines of a text file *)

Module Lines.
Import PyStr Files.

(** Neither ["\n"] nor ["\r"] occurs in [s]. *)
Definition no_newline (s : string) : bool :=
  all_chars (fun c => negb (Ascii.eqb c "010") && negb (Ascii.eqb c "013")) s.

(** No ["\r"] occurs in [s]. *)
Definition no_cr (s : string) : bool :=
  all_chars (fun c => negb (Ascii.eqb c "013")) s.

(** A line that ends with its ["\n"] and has no other. *)
Definition complete (l : string) : Prop :=
  exists body, l = body +:+ NL /\ no_newline body = true.

(** A last line that does not end with ["\n"]. *)
Definition partial (l : string) : Prop :=
  l <> EmptyString /\ no_newline l = true.

(** The lists [readlines] returns: complete lines, and possibly a partial
    line at the end. *)
Definition well_formed (ls : list string) : Prop :=
  Forall complete ls
  \/ exists front last,
       ls = front ++ [last] /\ Forall complete front /\ partial last.

End Lines.

(** ** [fix_incomplete_assignments.py]: the pass that writes the marker

    The script that runs before [fix_malformed_assignments.py]: it turns
    an incomplete assignment [name =] and the comment lines after it into
    an array under the marker comment. *)

Module Incomplete.
Import PyStr Re Scanner Files.

(** [s[n:]] and [s[:n]] for [n >= 0]. *)
Fixpoint drop_chars (n : nat) (s : string) : string :=
  match n, s with
  | S n', String _ r => drop_chars n' r
  | _, _ => s
  end.

Fixpoint take_chars (n : nat) (s : string) : string :=
  match n, s with
  | S n', String c r => String c (take_chars n' r)
  | _, _ => EmptyString
  end.

(** [s[start:-back]] for [start >= 0] and [back > 0]: the characters from
    index [start] to index [len(s) - back], none when the two cross. *)
Definition slice (start back : nat) (s : string) : string :=
  take_chars (String.length s - back - start) (drop_chars start s).

(** [s.endswith(p)]: [p] is one of the suffixes of [s]. *)
Fixpoint endswith (s p : string) : bool :=
  String.eqb s p
  || match s with
     | String _ r => endswith r p
     | EmptyString => false
     end.

(** What this script prints:
    - [FixedIncomplete v]: "  Fixed incomplete assignment: v" (line 66)
    - [ErrorReading p], [ErrorWriting p]: lines 18 and 79 (the text of the
      exception is left out)
    - [ModifiedFile p], [NothingFound p]: lines 76 and 82
    - [Checking p], [Found n], [Complete n]: lines 109, 105 and 113. *)
Inductive message : Type :=
  | FixedIncomplete (var_name : string)
  | ErrorReading (file_path : string)
  | ErrorWriting (file_path : string)
  | ModifiedFile (file_path : string)
  | NothingFound (file_path : string)
  | Checking (file_path : string)
  | Found (n : nat)
  | Complete (n : nat).

(** The variables of the outer loop, and what it has printed so far. *)
Record state : Type := State {
  i : nat;
  new_lines : list string;
  modified : bool;
  printed : list message
}.

(** Lines 21 to 23. *)
Definition initial : state :=
  {| i := 0; new_lines := []; modified := false; printed := [] |}.

(** The inner loop of lines 33 to 35: from index [j], the comment lines
    are appended to [next_lines_comments] until a line that is no comment
    or the end of [lines]; the list and the index reached. *)
Fixpoint collect_comments (fuel : nat) (lines : list string) (j : nat)
    (next_lines_comments : list string) : outcome (list string * nat) :=
  match lines !! j with
  | Some l =>
      if startswith (strip l) "#" then
        match fuel with
        | 0 => OutOfFuel
        | S fuel' =>
            collect_comments fuel' lines (j + 1) (next_lines_comments ++ [l])
        end
      else Ok (next_lines_comments, j)
  | None => Ok (next_lines_comments, j)
  end.

(** Lines 50 to 59: the lines written for one comment line: none or
    one. *)
Definition inside_array (indent comment_line : string) : list string :=
  let content := strip comment_line in
  if startswith content "# [" && endswith content "]" then
    let array_content := strip (slice 3 2 content) in
    if truthy array_content
    then [indent +:+ "  # " +:+ array_content +:+ NL]
    else []
  else if startswith content "#" then
    [indent +:+ "  " +:+ content +:+ NL]
  else
    [indent +:+ "  # " +:+ content +:+ NL].

(** Lines 44 to 61: the lines written for an incomplete assignment and
    the comment lines that follow it. *)
Definition array_block (indent var_name : string)
    (next_lines_comments : list string) : list string :=
  [indent +:+ MARKER +:+ NL; indent +:+ var_name +:+ " = [" +:+ NL]
  ++ concat (map (inside_array indent) next_lines_comments)
  ++ [indent +:+ "]" +:+ NL].

(** One pass through the body of the outer loop, lines 26 to 70.  The
    pattern of line 38 is the one of line 29, so it is matched once; the
    inner loop runs at most [length lines] times. *)
Definition loop_body (lines : list string) (st : state) : outcome state :=
  match lines !! i st with
  | None => Raise IndexError
  | Some line =>
      match match_incomplete line with
      | Some (indent, var_name) =>
          match collect_comments (length lines) lines (i st + 1) [] with
          | Ok (next_lines_comments, j) =>
              Ok {| i := j;
                    new_lines := new_lines st
                      ++ array_block indent var_name next_lines_comments;
                    modified := true;
                    printed := printed st ++ [FixedIncomplete var_name] |}
          | Raise e => Raise e
          | OutOfFuel => OutOfFuel
          end
      | None =>
          Ok {| i := i st + 1;
                new_lines := new_lines st ++ [line];
                modified := modified st;
                printed := printed st |}
      end
  end.

(** The [while i < len(lines)] loop of line 25. *)
Fixpoint while_loop (fuel : nat) (lines : list string) (st : state)
  : outcome state :=
  if i st <? length lines then
    match fuel with
    | 0 => OutOfFuel
    | S fuel' =>
        match loop_body lines st with
        | Ok st' => while_loop fuel' lines st'
        | Raise e => Raise e
        | OutOfFuel => OutOfFuel
        end
    end
  else Ok st.

(** Lines 21 to 70: the scan of the lines of one file. *)
Definition scan (lines : list string) : outcome state :=
  while_loop (length lines) lines initial.

(** The files by path, and what this script has printed. *)
Record world : Type := World {
  disk : gmap string file;
  stdout : list message
}.

Definition print (ms : list message) (w : world) : world :=
  {| disk := disk w; stdout := stdout w ++ ms |}.

(** [fix_incomplete_assignments_in_file(file_path)], lines 12 to 83: the
    value returned and the world after the call.  Reading and writing are
    those of [Files]. *)
Definition fix_incomplete_assignments_in_file (file_path : string)
    (w : world) : outcome (bool * world) :=
  match disk w !! file_path with
  | None => Ok (false, print [ErrorReading file_path] w)
  | Some f =>
      match text f with
      | None => Ok (false, print [ErrorReading file_path] w)
      | Some content =>
          match scan (readlines content) with
          | Ok st =>
              let w1 := print (printed st) w in
              if modified st then
                if writable f then
                  Ok (true,
                      {| disk := <[file_path :=
                                    {| text := Some (writelines (new_lines st));
                                       writable := true |}]> (disk w);
                         stdout := stdout w1 ++ [ModifiedFile file_path] |})
                else Ok (false, print [ErrorWriting file_path] w1)
              else Ok (false, print [NothingFound file_path] w1)
          | Raise e => Raise e
          | OutOfFuel => OutOfFuel
          end
      end
  end.

(** The states the outer loop goes through on [lines]. *)
Inductive reachable (lines : list string) : state -> Prop :=
  | reachable_initial : reachable lines initial
  | reachable_step st st' :
      reachable lines st ->
      i st < length lines ->
      loop_body lines st = Ok st' ->
      reachable lines st'.

End Incomplete.

(** ** [find_gni_files] and [main]

    The two scripts share the text of [find_gni_files] (lines 179 to 186
    of [fix_malformed_assignments.py], lines 85 to 92 of
    [fix_incomplete_assignments.py]) and the shape of [main]. *)

Module Walk.
Import PyStr Scanner Files.

(** What a path names: a file, or a directory with its entries in the
    order [os.scandir] lists them. *)
#[warnings="-register-all"]
Inductive node : Type :=
  | RegularFile
  | Directory (entries : list (string * node)).

Definition is_dir (n : node) : bool :=
  match n with
  | Directory _ => true
  | RegularFile => false
  end.

(** [os.path.join(a, b)] of [posixpath]. *)
Definition join (a b : string) : string :=
  if startswith b "/" then b
  else if negb (truthy a) || Incomplete.endswith a "/" then a +:+ b
  else a +:+ "/" +:+ b.

(** The names [os.walk] puts in [dirs] and in [files]. *)
Definition dirs (entries : list (string * node)) : list string :=
  (filter (fun e => is_dir e.2) entries).*1.

Definition nondirs (entries : list (string * node)) : list string :=
  (filter (fun e => negb (is_dir e.2)) entries).*1.

(** [os.walk(top)], top down: the triple of [top], then the walks of its
    directories in order.  Nothing is yielded for a path that is no
    directory: the error of [scandir] is ignored. *)
Fixpoint walk (top : string) (n : node)
  : list (string * list string * list string) :=
  match n with
  | RegularFile => []
  | Directory entries =>
      (top, dirs entries, nondirs entries)
      :: (fix walk_dirs (es : list (string * node)) :=
            match es with
            | [] => []
            | (name, sub) :: es' =>
                match sub with
                | Directory _ => walk (join top name) sub ++ walk_dirs es'
                | RegularFile => walk_dirs es'
                end
            end) entries
  end.

(** The inner [for] loop, lines 183 to 185. *)
Fixpoint for_each_name (root : string) (files gni_files : list string)
  : list string :=
  match files with
  | [] => gni_files
  | file :: rest =>
      for_each_name root rest
        (if Incomplete.endswith file ".gni"
         then gni_files ++ [join root file]
         else gni_files)
  end.

(** The outer [for] loop, lines 182 to 185. *)
Fixpoint for_each_triple (triples : list (string * list string * list string))
    (gni_files : list string) : list string :=
  match triples with
  | [] => gni_files
  | (root, _, files) :: rest =>
      for_each_triple rest (for_each_name root files gni_files)
  end.

(** [find_gni_files(directory)], where [directory] names [top]. *)
Definition find_gni_files (directory : string) (top : node) : list string :=
  for_each_triple (walk directory top) [].

(** How a run ends: [sys.exit(1)] after one of the two messages of
    lines 190 and 195, or the return of [main] with [modified_count]. *)
Inductive refusal : Type :=
  | Usage
  | DoesNotExist (directory : string).

Inductive ending : Type :=
  | SystemExit1 (said : refusal)
  | Returned (modified_count : nat).

(** [main] of [fix_malformed_assignments.py], lines 188 to 207.  [argv] is
    [sys.argv]; [tree path] is what [path] names on the system, [None]
    when [os.path.exists(path)] is false. *)
Definition main (argv : list string) (tree : string -> option node)
    (w : world) : outcome (ending * world) :=
  match argv with
  | [_; directory] =>
      match tree directory with
      | None => Ok (SystemExit1 (DoesNotExist directory), w)
      | Some top =>
          match Files.main (find_gni_files directory top) w with
          | Ok (modified_count, w') => Ok (Returned modified_count, w')
          | Raise e => Raise e
          | OutOfFuel => OutOfFuel
          end
      end
  | _ => Ok (SystemExit1 Usage, w)
  end.

(** [directory] holds, in the directory the walk calls [root], an entry
    [file] that is no directory. *)
Inductive holds : string -> node -> string -> string -> Prop :=
  | holds_here top entries file :
      (file, RegularFile) ∈ entries ->
      holds top (Directory entries) top file
  | holds_below top entries name sub root file :
      (name, Directory sub) ∈ entries ->
      holds (join top name) (Directory sub) root file ->
      holds top (Directory entries) root file.

End Walk.

(** ** [main] of [fix_incomplete_assignments.py] *)

Module IncompleteScript.
Import PyStr Scanner Incomplete.

(** The [for] loop of lines 107 to 111. *)
Fixpoint for_each_file (gni_files : list string) (modified_count : nat)
    (w : world) : outcome (nat * world) :=
  match gni_files with
  | [] => Ok (modified_count, w)
  | file_path :: rest =>
      match fix_incomplete_assignments_in_file file_path
              (print [Checking file_path] w) with
      | Ok (true, w') => for_each_file rest (modified_count + 1) w'
      | Ok (false, w') => for_each_file rest modified_count w'
      | Raise e => Raise e
      | OutOfFuel => OutOfFuel
      end
  end.

(** [main], lines 94 to 113. *)
Definition main (argv : list string) (tree : string -> option Walk.node)
    (w : world) : outcome (Walk.ending * world) :=
  match argv with
  | [_; directory] =>
      match tree directory with
      | None => Ok (Walk.SystemExit1 (Walk.DoesNotExist directory), w)
      | Some top =>
          let gni_files := Walk.find_gni_files directory top in
          match for_each_file gni_files 0
                  (print [Found (length gni_files)] w) with
          | Ok (modified_count, w') =>
              Ok (Walk.Returned modified_count,
                  print [Complete modified_count] w')
          | Raise e => Raise e
          | OutOfFuel => OutOfFuel
          end
      end
  | _ => Ok (Walk.SystemExit1 Walk.Usage, w)
  end.

End IncompleteScript.

(** * Properties *)

(** ** Strings and patterns *)

Module StrFacts.
Import PyStr Re.

Lemma space_not_ident_start c : isspace c = true -> ident_start c = false.
Proof. destruct c as [[] [] [] [] [] [] [] []]; vm_compute; congruence. Qed.

Lemma ident_start_not_space c : ident_start c = true -> isspace c = false.
Proof. destruct c as [[] [] [] [] [] [] [] []]; vm_compute; congruence. Qed.

Lemma ident_char_not_space c : ident_char c = true -> isspace c = false.
Proof. destruct c as [[] [] [] [] [] [] [] []]; vm_compute; congruence. Qed.

Lemma rstrip_cons_nonspace c r :
  isspace c = false -> rstrip (String c r) = String c (rstrip r).
Proof. intros H. simpl. rewrite H. now destruct (rstrip r). Qed.

Lemma rstrip_cons_space c r :
  isspace c = true ->
  rstrip (String c r) =
  match rstrip r with EmptyString => EmptyString | r' => String c r' end.
Proof. intros H. simpl. now rewrite H. Qed.

(** White space only: nothing is left by [rstrip]. *)
Lemma rstrip_blank s : all_chars isspace s = true -> rstrip s = EmptyString.
Proof.
  induction s as [|c r IH]; simpl; [done|].
  intros [Hc Hr]%andb_true_iff. now rewrite (IH Hr), Hc.
Qed.

Lemma span_snd_lstrip s : (span isspace s).2 = lstrip s.
Proof.
  induction s as [|c r IH]; simpl; [done|].
  destruct (isspace c); [|done]. now destruct (span isspace r).
Qed.

Lemma span_fst_blank s : all_chars isspace (span isspace s).1 = true.
Proof.
  induction s as [|c r IH]; simpl; [done|].
  destruct (isspace c) eqn:Hc; [|done].
  destruct (span isspace r); simpl in *. now rewrite Hc.
Qed.

(** The string is the two parts of [span]. *)
Lemma span_app p s : (span p s).1 +:+ (span p s).2 = s.
Proof.
  induction s as [|c r IH]; simpl; [done|].
  destruct (p c); [|done]. destruct (span p r); simpl in *. now rewrite <- IH.
Qed.

(** [lstrip] leaves nothing or a string that starts with a character that
    is not white space. *)
Lemma lstrip_head s :
  lstrip s = EmptyString \/
  exists c r, lstrip s = String c r /\ isspace c = false.
Proof.
  induction s as [|c r IH]; simpl; [now left|].
  destruct (isspace c) eqn:Hc; [done|]. right. now exists c, r.
Qed.

Lemma strip_head s :
  strip s = EmptyString \/
  exists c r, strip s = String c r /\ isspace c = false.
Proof.
  unfold strip. destruct (lstrip_head s) as [->|(c & r & -> & Hc)].
  - now left.
  - right. exists c, (rstrip r). now rewrite rstrip_cons_nonspace.
Qed.

(** A stripped string has no white space in front. *)
Lemma span_strip s : span isspace (strip s) = (EmptyString, strip s).
Proof.
  destruct (strip_head s) as [->|(c & r & -> & Hc)]; simpl; [done|].
  now rewrite Hc.
Qed.

Lemma lstrip_strip s : lstrip (strip s) = strip s.
Proof. rewrite <- span_snd_lstrip. now rewrite span_strip. Qed.

(** The first character of a stripped line is the first character of the
    line that is not white space. *)
Lemma strip_first s c r :
  strip s = String c r -> exists r', lstrip s = String c r'.
Proof.
  unfold strip. destruct (lstrip_head s) as [->|(c' & r' & -> & Hc)].
  - discriminate.
  - rewrite rstrip_cons_nonspace by done. intros [= -> _]. now exists r'.
Qed.

(** [rstrip] goes through an identifier. *)
Lemma span_ident_rstrip r :
  span ident_char (rstrip r) =
  ((span ident_char r).1, rstrip (span ident_char r).2).
Proof.
  induction r as [|c r IH]; [done|].
  destruct (ident_char c) eqn:Hc.
  - rewrite rstrip_cons_nonspace by now apply ident_char_not_space.
    simpl. rewrite Hc, IH. now destruct (span ident_char r).
  - cbn [span]. rewrite Hc. cbn [fst snd].
    simpl. destruct (rstrip r); [destruct (isspace c)|]; simpl; now rewrite ?Hc.
Qed.

Lemma identifier_rstrip s v r1 :
  identifier s = Some (v, r1) -> identifier (rstrip s) = Some (v, rstrip r1).
Proof.
  destruct s as [|c r]; [done|]. unfold identifier at 1.
  destruct (ident_start c) eqn:Hc; [|done].
  rewrite rstrip_cons_nonspace by now apply ident_start_not_space.
  simpl. rewrite Hc, span_ident_rstrip.
  destruct (span ident_char r). simpl. now intros [= <- <-].
Qed.

(** [rstrip] goes through white space followed by a character that is not
    white space. *)
Lemma expect_lstrip_rstrip a r r2 :
  isspace a = false ->
  expect a (lstrip r) = Some r2 ->
  expect a (lstrip (rstrip r)) = Some (rstrip r2).
Proof.
  intros Ha. induction r as [|c r IH]; [done|].
  destruct (isspace c) eqn:Hc.
  - cbn [lstrip]. rewrite Hc. intros H. specialize (IH H).
    rewrite rstrip_cons_space by done.
    destruct (rstrip r) eqn:Hr; [done|]. cbn [lstrip]. now rewrite Hc.
  - cbn [lstrip]. rewrite Hc. rewrite rstrip_cons_nonspace by done.
    cbn [lstrip]. rewrite Hc. simpl. destruct (Ascii.eqb c a); [|done].
    now intros [= ->].
Qed.

Lemma expect_startswith a s :
  startswith s (String a EmptyString) = bool_decide (is_Some (expect a s)).
Proof.
  destruct s as [|b r]; simpl; [done|].
  rewrite Ascii.eqb_sym. destruct r; now destruct (Ascii.eqb b a).
Qed.

End StrFacts.

Module PatternFacts.
Import PyStr Re Scanner StrFacts.

Lemma match_array_open_inv line indent var_name :
  match_array_open line = Some (indent, var_name) ->
  exists r1 r2 r3,
    indent = (span isspace line).1
    /\ identifier (lstrip line) = Some (var_name, r1)
    /\ expect "=" (lstrip r1) = Some r2
    /\ expect "[" (lstrip r2) = Some r3
    /\ blank_to_end r3 = true.
Proof.
  unfold match_array_open. rewrite <- span_snd_lstrip.
  destruct (span isspace line) as [ind r0]. cbn [fst snd].
  destruct (identifier r0) as [[v r1]|] eqn:Hi; [|done].
  destruct (expect "=" (lstrip r1)) as [r2|] eqn:He; [|done].
  destruct (expect "[" (lstrip r2)) as [r3|] eqn:Hb; [|done].
  destruct (blank_to_end r3) eqn:Hr; [|done].
  intros [= <- <-]. now exists r1, r2, r3.
Qed.

Lemma match_incomplete_inv line indent var_name :
  match_incomplete line = Some (indent, var_name) ->
  exists r1 r2,
    indent = (span isspace line).1
    /\ identifier (lstrip line) = Some (var_name, r1)
    /\ expect "=" (lstrip r1) = Some r2
    /\ blank_to_end r2 = true.
Proof.
  unfold match_incomplete. rewrite <- span_snd_lstrip.
  destruct (span isspace line) as [ind r0]. cbn [fst snd].
  destruct (identifier r0) as [[v r1]|] eqn:Hi; [|done].
  destruct (expect "=" (lstrip r1)) as [r2|] eqn:He; [|done].
  destruct (blank_to_end r2) eqn:Hr; [|done].
  intros [= <- <-]. now exists r1, r2.
Qed.

(** A line that starts, after white space, with an identifier, white space
    and [=] is an assignment for both tests once stripped. *)
Lemma assignment_prefix_strip line v r1 r2 :
  identifier (lstrip line) = Some (v, r1) ->
  expect "=" (lstrip r1) = Some r2 ->
  identifier (strip line) = Some (v, rstrip r1)
  /\ expect "=" (lstrip (rstrip r1)) = Some (rstrip r2).
Proof.
  intros Hi He. split.
  - now apply identifier_rstrip.
  - now apply expect_lstrip_rstrip.
Qed.

Lemma assignment_prefix_tests line v r1 r2 :
  identifier (lstrip line) = Some (v, r1) ->
  expect "=" (lstrip r1) = Some r2 ->
  match_assignment (strip line) = true
  /\ match_assignment_or_plus (strip line) = true.
Proof.
  intros Hi He.
  destruct (assignment_prefix_strip _ _ _ _ Hi He) as [Hi' He'].
  unfold match_assignment, match_assignment_or_plus. rewrite Hi'.
  rewrite expect_startswith, He'. split; [|apply orb_true_iff; left];
    now apply bool_decide_eq_true.
Qed.

(** An array opener is an assignment for the tests of all three patterns. *)
Lemma array_open_is_assignment line indent var_name :
  match_array_open line = Some (indent, var_name) ->
  match_assignment (strip line) = true
  /\ match_assignment_or_plus (strip line) = true.
Proof.
  intros (r1 & r2 & r3 & _ & Hi & He & _)%match_array_open_inv.
  eauto using assignment_prefix_tests.
Qed.

(** So is an incomplete assignment. *)
Lemma incomplete_is_assignment line indent var_name :
  match_incomplete line = Some (indent, var_name) ->
  match_assignment (strip line) = true
  /\ match_assignment_or_plus (strip line) = true.
Proof.
  intros (r1 & r2 & _ & Hi & He & _)%match_incomplete_inv.
  eauto using assignment_prefix_tests.
Qed.

Lemma strip_idempotent s : strip (strip s) = strip s.
Proof.
  unfold strip at 1. rewrite lstrip_strip. unfold strip.
  generalize (lstrip s). clear s. intros s.
  induction s as [|c r IH]; [done|]. simpl.
  destruct (rstrip r) eqn:Hr.
  - destruct (isspace c) eqn:Hc; simpl; now rewrite ?Hc.
  - simpl in IH. simpl. rewrite IH. done.
Qed.

(** The test of line 141 is made on a stripped line: what it says of the
    line itself. *)
Lemma incomplete_stripped_is_assignment before indent var_name :
  match_incomplete (strip before) = Some (indent, var_name) ->
  match_assignment (strip before) = true
  /\ match_assignment_or_plus (strip before) = true.
Proof.
  intros H%incomplete_is_assignment. now rewrite strip_idempotent in H.
Qed.

(** The incomplete assignment is seen through [strip], which takes the
    indentation away: group 1 is then empty. *)
Lemma match_incomplete_strip line indent var_name :
  match_incomplete line = Some (indent, var_name) ->
  match_incomplete (strip line) = Some (EmptyString, var_name).
Proof.
  intros (r1 & r2 & _ & Hi & He & Hb)%match_incomplete_inv.
  destruct (assignment_prefix_strip _ _ _ _ Hi He) as [Hi' He'].
  unfold match_incomplete. rewrite span_strip, Hi', He'.
  now rewrite (rstrip_blank r2 Hb).
Qed.

Lemma match_incomplete_stripped_indent line indent var_name :
  match_incomplete (strip line) = Some (indent, var_name) ->
  indent = EmptyString.
Proof.
  intros (r1 & r2 & -> & _)%match_incomplete_inv. now rewrite span_strip.
Qed.

(** A line that starts with [#] once stripped is no array opener. *)
Lemma comment_not_array_open line :
  startswith (strip line) "#" = true -> match_array_open line = None.
Proof.
  intros H. destruct (strip line) as [|c r] eqn:Hs; [done|].
  cbn [startswith] in H. apply andb_true_iff in H as [<-%Ascii.eqb_eq _].
  apply strip_first in Hs as [r' Hs].
  unfold match_array_open. rewrite <- (span_snd_lstrip line) in Hs.
  destruct (span isspace line). cbn [snd] in Hs. now rewrite Hs.
Qed.

Lemma marker_is_comment s :
  startswith s MARKER = true -> startswith s "#" = true.
Proof.
  destruct s as [|c r]; [done|]. unfold MARKER. cbn [startswith].
  intros [-> _]%andb_true_iff. done.
Qed.

Lemma marker_not_array_open line :
  startswith (strip line) MARKER = true -> match_array_open line = None.
Proof. intros H%marker_is_comment. now apply comment_not_array_open. Qed.

Lemma comment_not_expression s :
  startswith s "#" = true -> expression_ok s = false.
Proof.
  intros H. unfold expression_ok. rewrite H. now destruct (truthy s).
Qed.

End PatternFacts.

(** ** The matchers and the patterns they stand for *)

Module ShapeFacts.
Import PyStr Re Notions StrFacts PatternFacts.

Lemma app_cons c a b : String c a +:+ b = String c (a +:+ b).
Proof. done. Qed.

Lemma app_nil b : EmptyString +:+ b = b.
Proof. done. Qed.

Lemma span_spec p s a b :
  span p s = (a, b) <->
  s = a +:+ b /\ all_chars p a = true /\ stops p b.
Proof.
  split.
  - revert a b. induction s as [|c r IH]; intros a b; cbn [span].
    + intros [= <- <-]. done.
    + destruct (p c) eqn:Hc.
      * destruct (span p r) as [a' b'] eqn:Hs. intros [= <- <-].
        destruct (IH a' b' eq_refl) as (-> & Ha & Hb).
        cbn [all_chars]. now rewrite Hc.
      * intros [= <- <-]. done.
  - intros (-> & Ha & Hb). induction a as [|c a IH].
    + rewrite app_nil. destruct b as [|c r]; [done|].
      cbn [span]. simpl in Hb. now rewrite Hb.
    + cbn [all_chars] in Ha. apply andb_true_iff in Ha as [Hc Ha].
      rewrite app_cons. cbn [span]. now rewrite Hc, (IH Ha).
Qed.

Lemma lstrip_spec ws t :
  blank ws -> stops isspace t -> lstrip (ws +:+ t) = t.
Proof.
  intros Hw Ht. rewrite <- span_snd_lstrip.
  now rewrite (proj2 (span_spec isspace (ws +:+ t) ws t)).
Qed.

Lemma lstrip_split s :
  exists ws, s = ws +:+ lstrip s /\ blank ws /\ stops isspace (lstrip s).
Proof.
  destruct (span isspace s) as [a b] eqn:Hs.
  pose proof (span_snd_lstrip s) as Hl. rewrite Hs in Hl. simpl in Hl.
  subst b. apply span_spec in Hs as (Heq & Ha & Hb). now exists a.
Qed.

Lemma identifier_spec s v rest :
  identifier s = Some (v, rest) <->
  s = v +:+ rest /\ is_identifier v /\ stops ident_char rest.
Proof.
  split.
  - destruct s as [|c r]; [done|]. cbn [identifier].
    destruct (ident_start c) eqn:Hc; [|done].
    destruct (span ident_char r) as [a b] eqn:Hs. intros [= <- <-].
    apply span_spec in Hs as (-> & Ha & Hb).
    split; [done|]. split; [|done]. now exists c, a.
  - intros (-> & (c & r & -> & Hc & Hr) & Hrest).
    rewrite app_cons. cbn [identifier]. rewrite Hc.
    now rewrite (proj2 (span_spec ident_char (r +:+ rest) r rest)).
Qed.

Lemma expect_spec c s rest : expect c s = Some rest <-> s = String c rest.
Proof.
  destruct s as [|b r]; cbn [expect]; [done|].
  destruct (Ascii.eqb b c) eqn:Hb.
  - apply Ascii.eqb_eq in Hb as ->. split; congruence.
  - apply Ascii.eqb_neq in Hb. split; [done|]. intros [= -> _]. done.
Qed.

(** After an identifier comes white space or a character that is not of
    an identifier. *)
Lemma stops_after_blank ws c rest :
  blank ws -> ident_char c = false ->
  stops ident_char (ws +:+ String c rest).
Proof.
  intros Hw Hc. destruct ws as [|b ws]; [done|].
  rewrite app_cons. cbn [stops]. unfold blank in Hw. cbn [all_chars] in Hw.
  apply andb_true_iff in Hw as [Hb _].
  destruct (ident_char b) eqn:Hi; [|done].
  apply ident_char_not_space in Hi. congruence.
Qed.

(** The head of a string, after an identifier, white space and one more
    character. *)
Lemma prefix_spec s v r1 op rest :
  isspace op = false -> ident_char op = false ->
  identifier s = Some (v, r1) /\ lstrip r1 = String op rest <->
  exists ws, s = v +:+ ws +:+ String op rest
             /\ r1 = ws +:+ String op rest
             /\ is_identifier v /\ blank ws.
Proof.
  intros Hs Hi. split.
  - intros [(-> & Hv & _)%identifier_spec Hl].
    destruct (lstrip_split r1) as (ws & Hr & Hw & _). rewrite Hl in Hr.
    exists ws. now rewrite <- Hr.
  - intros (ws & -> & -> & Hv & Hw). split.
    + apply identifier_spec. split; [done|]. split; [done|].
      now apply stops_after_blank.
    + now apply lstrip_spec.
Qed.

Lemma startswith_char s c :
  startswith s (String c EmptyString) = true <-> exists r, s = String c r.
Proof.
  rewrite expect_startswith, bool_decide_eq_true. split.
  - intros [r Hr]. apply expect_spec in Hr. eauto.
  - intros [r ->]. exists r. now apply expect_spec.
Qed.

Lemma identifier_stops_space v :
  is_identifier v -> forall rest, stops isspace (v +:+ rest).
Proof.
  intros (c & r & -> & Hc & _) rest. rewrite app_cons. cbn [stops].
  now apply ident_start_not_space.
Qed.

Lemma array_open_shape_iff :
  forall line indent var_name,
  match_array_open line = Some (indent, var_name)
  <-> array_open_shape line indent var_name.
Proof.
  intros line indent v. split.
  - intros (r1 & r2 & r3 & -> & Hi & He & Hb & Hr)%match_array_open_inv.
    apply expect_spec in He, Hb.
    destruct (proj1 (prefix_spec _ _ _ "=" r2 eq_refl eq_refl)
                (conj Hi He)) as (ws1 & Hline & _ & Hv & Hw1).
    destruct (lstrip_split r2) as (ws2 & Hr2 & Hw2 & _).
    rewrite Hb in Hr2.
    exists ws1, ws2, r3.
    split; [|split; [apply span_fst_blank|split; [done|split;
      [done|split; [done|exact Hr]]]]].
    rewrite <- (span_app isspace line) at 1.
    rewrite span_snd_lstrip, Hline. now rewrite Hr2 at 1.
  - intros (ws1 & ws2 & ws3 & -> & Hind & Hv & Hw1 & Hw2 & Hw3).
    unfold match_array_open.
    rewrite (proj2 (span_spec isspace _ indent
                      (v +:+ ws1 +:+ "=" +:+ ws2 +:+ "[" +:+ ws3)))
      by (split; [done|split; [done|now apply identifier_stops_space]]).
    destruct (proj2 (prefix_spec
                (v +:+ ws1 +:+ "=" +:+ ws2 +:+ "[" +:+ ws3) v
                (ws1 +:+ "=" +:+ ws2 +:+ "[" +:+ ws3) "="
                (ws2 +:+ "[" +:+ ws3) eq_refl eq_refl)) as [-> ->];
      [now exists ws1|].
    cbn [expect]. change (Ascii.eqb "=" "=") with true. cbn match.
    rewrite (lstrip_spec ws2 ("[" +:+ ws3)) by done.
    change ("[" +:+ ws3) with (String "[" ws3). cbn [expect].
    change (Ascii.eqb "[" "[") with true. cbn match.
    unfold blank, blank_to_end in *. now rewrite Hw3.
Qed.

Lemma incomplete_shape_iff :
  forall line indent var_name,
  match_incomplete line = Some (indent, var_name)
  <-> incomplete_shape line indent var_name.
Proof.
  intros line indent v. split.
  - intros (r1 & r2 & -> & Hi & He & Hr)%match_incomplete_inv.
    apply expect_spec in He.
    destruct (proj1 (prefix_spec _ _ _ "=" r2 eq_refl eq_refl)
                (conj Hi He)) as (ws1 & Hline & _ & Hv & Hw1).
    exists ws1, r2.
    split; [|split; [apply span_fst_blank|split; [done|split;
      [done|exact Hr]]]].
    rewrite <- (span_app isspace line) at 1.
    now rewrite span_snd_lstrip, Hline.
  - intros (ws1 & ws2 & -> & Hind & Hv & Hw1 & Hw2).
    unfold match_incomplete.
    rewrite (proj2 (span_spec isspace _ indent
                      (v +:+ ws1 +:+ "=" +:+ ws2)))
      by (split; [done|split; [done|now apply identifier_stops_space]]).
    destruct (proj2 (prefix_spec (v +:+ ws1 +:+ "=" +:+ ws2) v
                (ws1 +:+ "=" +:+ ws2) "=" ws2 eq_refl eq_refl))
      as [-> ->]; [now exists ws1|].
    cbn [expect]. change (Ascii.eqb "=" "=") with true. cbn match.
    unfold blank, blank_to_end in *. now rewrite Hw2.
Qed.

Lemma assignment_shape_iff :
  forall s,
  match_assignment s = true <-> assignment_shape s.
Proof.
  intros s. unfold match_assignment. split.
  - destruct (identifier s) as [[v r1]|] eqn:Hi; [|done].
    intros [rest Hl]%startswith_char.
    destruct (proj1 (prefix_spec _ _ _ "=" rest eq_refl eq_refl)
                (conj Hi Hl)) as (ws & -> & _ & Hv & Hw).
    now exists v, ws, rest.
  - intros (v & ws & rest & -> & Hv & Hw).
    destruct (proj2 (prefix_spec (v +:+ ws +:+ "=" +:+ rest) v
                (ws +:+ "=" +:+ rest) "=" rest eq_refl eq_refl))
      as [-> ->]; [now exists ws|]. done.
Qed.

Lemma assignment_or_plus_shape_iff :
  forall s,
  match_assignment_or_plus s = true <-> assignment_or_plus_shape s.
Proof.
  intros s. unfold match_assignment_or_plus. split.
  - destruct (identifier s) as [[v r1]|] eqn:Hi; [|done].
    intros [[rest Hl]%startswith_char|[rest Hl]%startswith_char]
      %orb_true_iff.
    + destruct (proj1 (prefix_spec _ _ _ "=" rest eq_refl eq_refl)
                  (conj Hi Hl)) as (ws & -> & _ & Hv & Hw).
      exists v, ws, "="%char, rest. auto.
    + destruct (proj1 (prefix_spec _ _ _ "+" rest eq_refl eq_refl)
                  (conj Hi Hl)) as (ws & -> & _ & Hv & Hw).
      exists v, ws, "+"%char, rest. auto.
  - intros (v & ws & op & rest & -> & Hv & Hw & [-> | ->]).
    + destruct (proj2 (prefix_spec (v +:+ ws +:+ String "=" rest) v
                  (ws +:+ String "=" rest) "=" rest eq_refl eq_refl))
        as [-> ->]; [now exists ws|]. done.
    + destruct (proj2 (prefix_spec (v +:+ ws +:+ String "+" rest) v
                  (ws +:+ String "+" rest) "+" rest eq_refl eq_refl))
        as [-> ->]; [now exists ws|]. done.
Qed.

(** X3. Each matcher accepts exactly the strings its pattern describes,
    and the two groups it returns are the white space in front and the
    identifier. *)
Theorem matchers_follow_the_patterns :
  (forall line indent var_name,
      match_array_open line = Some (indent, var_name)
      <-> array_open_shape line indent var_name)
  /\ (forall line indent var_name,
      match_incomplete line = Some (indent, var_name)
      <-> incomplete_shape line indent var_name)
  /\ (forall s, match_assignment s = true <-> assignment_shape s)
  /\ (forall s,
      match_assignment_or_plus s = true <-> assignment_or_plus_shape s).
Proof.
  split; [|split; [|split]].
  - apply array_open_shape_iff.
  - apply incomplete_shape_iff.
  - apply assignment_shape_iff.
  - apply assignment_or_plus_shape_iff.
Qed.

Lemma matchers_witness :
  match_array_open ("  y = [" +:+ NL) = Some ("  ", "y")
  /\ array_open_shape ("  y = [" +:+ NL) "  " "y".
Proof.
  split; [reflexivity|].
  apply (proj1 (proj1 matchers_follow_the_patterns ("  y = [" +:+ NL)
                  "  " "y")).
  reflexivity.
Defined.

End ShapeFacts.

(** ** The three patterns and the loop body *)

Module ScannerFacts.
Import PyStr Re Scanner Notions Invariant StrFacts PatternFacts.

Lemma pattern1_inv lines k line out var_name :
  pattern1 lines k line = Some (out, var_name) ->
  exists indent closer l2,
    match_array_open line = Some (indent, var_name)
    /\ lines !! (k + 1) = Some closer /\ strip closer = "]"
    /\ lines !! (k + 2) = Some l2 /\ dangling_ok (strip l2) = true
    /\ out = assignment indent var_name (value_direct_or_quoted (strip l2)).
Proof.
  unfold pattern1.
  destruct (match_array_open line) as [[indent v]|]; [|done].
  destruct (lines !! (k + 1)) as [closer|]; [|done].
  destruct (String.eqb (strip closer) "]") eqn:Hc; [|done].
  destruct (lines !! (k + 2)) as [l2|]; [|done].
  destruct (dangling_ok (strip l2)) eqn:Hd; [|done].
  intros [= <- <-]. exists indent, closer, l2.
  apply String.eqb_eq in Hc. done.
Qed.


Lemma pattern2_inv lines k line out var_name :
  pattern2 lines k line = Some (out, var_name) ->
  exists indent opener closer l3,
    startswith (strip line) MARKER = true
    /\ lines !! (k + 1) = Some opener
    /\ match_array_open opener = Some (indent, var_name)
    /\ lines !! (k + 2) = Some closer /\ strip closer = "]"
    /\ lines !! (k + 3) = Some l3 /\ dangling_ok (strip l3) = true
    /\ out = assignment indent var_name (value_commented (strip l3)).
Proof.
  unfold pattern2.
  destruct (startswith (strip line) MARKER) eqn:Hm; [|done].
  destruct (lines !! (k + 1)) as [opener|] eqn:H1; [|done].
  destruct (match_array_open opener) as [[indent v]|] eqn:Ho; [|done].
  destruct (lines !! (k + 2)) as [closer|] eqn:H2; [|done].
  destruct (String.eqb (strip closer) "]") eqn:Hc; [|done].
  destruct (lines !! (k + 3)) as [l3|] eqn:H3; [|done].
  destruct (dangling_ok (strip l3)) eqn:Hd; [|done].
  intros [= <- <-]. exists indent, opener, closer, l3.
  apply String.eqb_eq in Hc. done.
Qed.

Lemma pattern2_fires lines k line indent var_name opener closer l3 :
  startswith (strip line) MARKER = true ->
  lines !! (k + 1) = Some opener ->
  match_array_open opener = Some (indent, var_name) ->
  lines !! (k + 2) = Some closer -> strip closer = "]" ->
  lines !! (k + 3) = Some l3 -> dangling_ok (strip l3) = true ->
  pattern2 lines k line =
  Some (assignment indent var_name (value_commented (strip l3)), var_name).
Proof.
  intros Hm Ho Hmo Hc Hs Hl Hd. unfold pattern2.
  rewrite Hm, Ho, Hmo, Hc, Hs, Hl, Hd. done.
Qed.

Lemma pattern3_inv lines k line out var_name :
  pattern3 lines k line = Some (out, var_name) ->
  exists indent before,
    0 < k /\ expression_ok (strip line) = true
    /\ lines !! (k - 1) = Some before
    /\ match_incomplete (strip before) = Some (indent, var_name)
    /\ out = assignment indent var_name
               (value_direct_or_quoted (strip line)).
Proof.
  unfold pattern3.
  destruct (expression_ok (strip line)) eqn:He; [|done].
  destruct (0 <? k) eqn:Hk; [|done]. cbn [andb].
  destruct (lines !! (k - 1)) as [before|]; [|done].
  destruct (String.eqb (strip before) "]" && (1 <? k)); [done|].
  destruct (match_incomplete (strip before)) as [[indent v]|] eqn:Hi; [|done].
  intros [= <- <-]. exists indent, before.
  apply Nat.ltb_lt in Hk. done.
Qed.


(** Where Pattern 3 matches, Patterns 1 and 2 do not. *)
Lemma pattern3_excludes lines k line out var_name :
  pattern3 lines k line = Some (out, var_name) ->
  pattern1 lines k line = None /\ pattern2 lines k line = None.
Proof.
  intros (indent & before & _ & He & _)%pattern3_inv. split.
  - unfold pattern1.
    destruct (match_array_open line) as [[ind v]|] eqn:Ho; [|done].
    apply array_open_is_assignment in Ho as [_ Ho].
    unfold expression_ok in He. rewrite Ho, andb_false_r in He. done.
  - unfold pattern2.
    destruct (startswith (strip line) MARKER) eqn:Hm; [|done].
    apply marker_is_comment, comment_not_expression in Hm. congruence.
Qed.

(** Where Pattern 2 matches, Pattern 1 does not. *)
Lemma pattern2_excludes lines k line out var_name :
  pattern2 lines k line = Some (out, var_name) ->
  pattern1 lines k line = None.
Proof.
  intros (? & ? & ? & ? & Hm & _)%pattern2_inv.
  unfold pattern1. now rewrite (marker_not_array_open _ Hm).
Qed.

(** A line that passes the test of Patterns 1 and 2, or the test of
    Pattern 3, is not an incomplete assignment. *)
Lemma dangling_not_incomplete l :
  dangling_ok (strip l) = true -> match_incomplete (strip l) = None.
Proof.
  intros Hd. destruct (match_incomplete (strip l)) as [[ind v]|] eqn:Hi; [|done].
  apply incomplete_stripped_is_assignment in Hi as [Hi _].
  unfold dangling_ok in Hd. rewrite Hi, andb_false_r in Hd. done.
Qed.

Lemma expression_not_incomplete l :
  expression_ok (strip l) = true -> match_incomplete (strip l) = None.
Proof.
  intros Hd. destruct (match_incomplete (strip l)) as [[ind v]|] eqn:Hi; [|done].
  apply incomplete_stripped_is_assignment in Hi as [_ Hi].
  unfold expression_ok in Hd. rewrite Hi, andb_false_r in Hd. done.
Qed.

Lemma pop_snoc popped before : pop (popped ++ [before]) = Ok popped.
Proof.
  unfold pop. destruct (popped ++ [before]) eqn:H.
  - now destruct popped.
  - rewrite <- H. now rewrite removelast_last.
Qed.

(** The four ways through the loop body. *)
Lemma loop_body_cases lines st st' :
  loop_body lines st = Ok st' ->
  exists line, lines !! i st = Some line /\
    ((exists out v, pattern1 lines (i st) line = Some (out, v)
        /\ st' = {| i := i st + 3; new_lines := new_lines st ++ [out];
                    modified := true;
                    printed := printed st ++ [FixedArray v] |})
     \/ (exists out v, pattern2 lines (i st) line = Some (out, v)
        /\ st' = {| i := i st + 4; new_lines := new_lines st ++ [out];
                    modified := true;
                    printed := printed st ++ [FixedCommentedArray v] |})
     \/ (exists out v popped, pattern3 lines (i st) line = Some (out, v)
        /\ pop (new_lines st) = Ok popped
        /\ st' = {| i := i st + 1; new_lines := popped ++ [out];
                    modified := true;
                    printed := printed st ++ [FixedDangling v] |})
     \/ (pattern1 lines (i st) line = None
        /\ pattern2 lines (i st) line = None
        /\ pattern3 lines (i st) line = None
        /\ st' = {| i := i st + 1; new_lines := new_lines st ++ [line];
                    modified := modified st; printed := printed st |})).
Proof.
  unfold loop_body. destruct (lines !! i st) as [line|]; [|done].
  intros H. exists line. split; [done|].
  destruct (pattern1 lines (i st) line) as [[out v]|] eqn:H1.
  { injection H as <-. left. eauto. }
  destruct (pattern2 lines (i st) line) as [[out v]|] eqn:H2.
  { injection H as <-. right. left. eauto. }
  destruct (pattern3 lines (i st) line) as [[out v]|] eqn:H3.
  { destruct (pop (new_lines st)) as [popped| |] eqn:Hp; [|done..].
    injection H as <-. right. right. left. eauto 6. }
  injection H as <-. right. right. right. done.
Qed.

Lemma take_add_3 (lines : list string) k a b c :
  lines !! k = Some a -> lines !! (k + 1) = Some b ->
  lines !! (k + 2) = Some c ->
  take (k + 3) lines = take k lines ++ [a; b; c].
Proof.
  intros Ha Hb Hc.
  replace (k + 3) with (S (S (S k))) by lia.
  replace (k + 1) with (S k) in Hb by lia.
  replace (k + 2) with (S (S k)) in Hc by lia.
  rewrite (take_S_r _ _ _ Hc), (take_S_r _ _ _ Hb), (take_S_r _ _ _ Ha).
  now rewrite <- !app_assoc.
Qed.

Lemma take_add_4 (lines : list string) k a b c d :
  lines !! k = Some a -> lines !! (k + 1) = Some b ->
  lines !! (k + 2) = Some c -> lines !! (k + 3) = Some d ->
  take (k + 4) lines = take k lines ++ [a; b; c; d].
Proof.
  intros Ha Hb Hc Hd.
  replace (k + 4) with (S (k + 3)) by lia.
  rewrite (take_S_r _ _ _ Hd), (take_add_3 _ _ _ _ _ Ha Hb Hc).
  now rewrite <- !app_assoc.
Qed.

Lemma invariant_initial lines : invariant lines initial.
Proof.
  split; simpl; try done; try lia; rewrite ?take_0; try constructor.
Qed.

(** The loop body keeps the invariant. *)
Lemma invariant_step lines st st' :
  invariant lines st -> loop_body lines st = Ok st' -> invariant lines st'.
Proof.
  intros Hinv (line & Hline & Hcase)%loop_body_cases.
  destruct Hcase as
    [(out & v & Hp & ->)|[(out & v & Hp & ->)|
     [(out & v & popped & Hp & Hpop & ->)|(_ & _ & _ & ->)]]].
  - apply pattern1_inv in Hp
      as (indent & closer & l2 & Ho & Hc & Hs & Hl & Hd & ->).
    split; cbn [i new_lines modified printed].
    + apply lookup_lt_Some in Hl. lia.
    + rewrite (take_add_3 _ _ _ _ _ Hline Hc Hl).
      constructor; [apply Hinv|]. now constructor.
    + done.
    + split; [intros _; now destruct (printed st)|done].
    + intros before _ Hb Hi.
      replace (i st + 3 - 1) with (i st + 2) in Hb by lia.
      rewrite Hl in Hb. injection Hb as <-.
      rewrite (dangling_not_incomplete _ Hd) in Hi. now destruct Hi.
  - apply pattern2_inv in Hp
      as (indent & opener & closer & l3 & Hm & Ho & Hmo & Hc & Hs & Hl & Hd & ->).
    split; cbn [i new_lines modified printed].
    + apply lookup_lt_Some in Hl. lia.
    + rewrite (take_add_4 _ _ _ _ _ _ Hline Ho Hc Hl).
      constructor; [apply Hinv|]. now constructor.
    + done.
    + split; [intros _; now destruct (printed st)|done].
    + intros before _ Hb Hi.
      replace (i st + 4 - 1) with (i st + 3) in Hb by lia.
      rewrite Hl in Hb. injection Hb as <-.
      rewrite (dangling_not_incomplete _ Hd) in Hi. now destruct Hi.
  - apply pattern3_inv in Hp as (indent & before & Hk & He & Hb & Hi & ->).
    destruct (inv_last _ _ Hinv before Hk Hb) as (popped' & Hnl & Hacc);
      [now rewrite Hi|].
    rewrite Hnl, pop_snoc in Hpop. injection Hpop as <-.
    split; cbn [i new_lines modified printed].
    + apply lookup_lt_Some in Hline. lia.
    + replace (i st + 1) with (S (S (i st - 1))) by lia.
      rewrite (take_S_r _ _ line), (take_S_r _ _ before) by
        (try replace (S (i st - 1)) with (i st) by lia; done).
      rewrite <- app_assoc. constructor; [done|]. now constructor.
    + done.
    + split; [intros _; now destruct (printed st)|done].
    + intros before' _ Hb' Hi'.
      replace (i st + 1 - 1) with (i st) in Hb' by lia.
      rewrite Hline in Hb'. injection Hb' as <-.
      rewrite (expression_not_incomplete _ He) in Hi'. now destruct Hi'.
  - split; cbn [i new_lines modified printed].
    + apply lookup_lt_Some in Hline. lia.
    + replace (i st + 1) with (S (i st)) by lia.
      rewrite (take_S_r _ _ _ Hline). constructor; [apply Hinv|constructor].
    + intros Hm. replace (i st + 1) with (S (i st)) by lia.
      rewrite (take_S_r _ _ _ Hline). f_equal. now apply Hinv.
    + apply Hinv.
    + intros before _ Hb _.
      replace (i st + 1 - 1) with (i st) in * by lia.
      rewrite Hline in Hb. injection Hb as <-.
      exists (new_lines st). split; [done|apply Hinv].
Qed.

Lemma reachable_invariant lines st : reachable lines st -> invariant lines st.
Proof.
  induction 1; eauto using invariant_initial, invariant_step.
Qed.

(** Under the invariant the loop body raises nothing. *)
Lemma loop_body_ok lines st :
  invariant lines st -> i st < length lines ->
  exists st', loop_body lines st = Ok st' /\ i st < i st'.
Proof.
  intros Hinv Hlt. apply lookup_lt_is_Some in Hlt as [line Hline].
  unfold loop_body. rewrite Hline.
  destruct (pattern1 lines (i st) line) as [[out v]|] eqn:H1.
  { eexists. split; [done|]. simpl. lia. }
  destruct (pattern2 lines (i st) line) as [[out v]|] eqn:H2.
  { eexists. split; [done|]. simpl. lia. }
  destruct (pattern3 lines (i st) line) as [[out v]|] eqn:H3.
  { apply pattern3_inv in H3 as (indent & before & Hk & He & Hb & Hi & ->).
    destruct (inv_last _ _ Hinv before Hk Hb) as (popped & Hnl & _);
      [now rewrite Hi|].
    rewrite Hnl, pop_snoc. eexists. split; [done|]. simpl. lia. }
  eexists. split; [done|]. simpl. lia.
Qed.

(** The loop ends within [length lines - i] passes, in a state where
    [i = len(lines)]. *)
Lemma while_loop_returns lines fuel st :
  reachable lines st -> length lines - i st <= fuel ->
  exists st', while_loop fuel lines st = Ok st'
    /\ reachable lines st' /\ i st' = length lines.
Proof.
  revert st. induction fuel as [|fuel IH]; intros st Hr Hf.
  - pose proof (inv_bound _ _ (reachable_invariant _ _ Hr)).
    exists st. cbn [while_loop].
    destruct (i st <? length lines) eqn:Hlt.
    + apply Nat.ltb_lt in Hlt. lia.
    + split; [done|]. split; [done|]. lia.
  - cbn [while_loop]. destruct (i st <? length lines) eqn:Hlt.
    + apply Nat.ltb_lt in Hlt.
      destruct (loop_body_ok lines st) as (st1 & Hb & Hi);
        [now apply reachable_invariant|done|].
      rewrite Hb. apply IH; [|lia]. econstructor; eauto.
    + apply Nat.ltb_ge in Hlt.
      pose proof (inv_bound _ _ (reachable_invariant _ _ Hr)).
      exists st. split; [done|]. split; [done|]. lia.
Qed.

(** The scan of any list of lines returns. *)
Lemma scan_returns lines :
  exists st, scan lines = Ok st /\ reachable lines st
    /\ i st = length lines.
Proof.
  apply while_loop_returns; [constructor|]. simpl. lia.
Qed.

End ScannerFacts.

(** ** The value of Pattern 2, in the words of the specification *)

Module ClassifyFacts.
Import PyStr Re Scanner Notions.

Lemma contains_any_char c v :
  contains c v = any_char (fun b => Ascii.eqb b c) v.
Proof.
  induction v as [|b r IH]; [done|]. cbn [contains any_char].
  now rewrite IH, Ascii.eqb_sym.
Qed.

Lemma any_char_orb p q v :
  any_char (fun c => p c || q c) v = any_char p v || any_char q v.
Proof.
  induction v as [|b r IH]; [done|]. cbn [any_char]. rewrite IH.
  destruct (p b), (q b), (any_char p r), (any_char q r); done.
Qed.

Lemma has_expression_char_spec v : has_expression_char v = expression_like v.
Proof.
  unfold has_expression_char, expression_like. cbn [existsb].
  rewrite !contains_any_char, !any_char_orb, orb_false_r.
  now rewrite !orb_assoc.
Qed.

Lemma isalnum_alt s : isalnum s = truthy s && all_chars isalnum_char s.
Proof. now destruct s. Qed.

Lemma all_chars_remove p c s :
  all_chars p (remove_char c s)
  = all_chars (fun b => Ascii.eqb c b || p b) s.
Proof.
  induction s as [|b r IH]; [done|]. cbn [remove_char all_chars].
  destruct (Ascii.eqb c b); cbn [all_chars orb andb]; now rewrite IH.
Qed.

Lemma any_char_remove q c s :
  any_char q (remove_char c s)
  = any_char (fun b => negb (Ascii.eqb c b) && q b) s.
Proof.
  induction s as [|b r IH]; [done|]. cbn [remove_char any_char].
  destruct (Ascii.eqb c b); cbn [any_char negb andb orb]; now rewrite IH.
Qed.

Lemma truthy_any_char s : truthy s = any_char (fun _ => true) s.
Proof. now destruct s. Qed.

Lemma all_chars_ext p q s :
  (forall b, p b = q b) -> all_chars p s = all_chars q s.
Proof.
  intros H. induction s as [|b r IH]; [done|]. cbn [all_chars].
  now rewrite H, IH.
Qed.

(** Two tests that agree on the characters of [s] agree on [s]. *)
Lemma any_char_within a p q s :
  all_chars a s = true ->
  (forall b, a b = true -> p b = q b) ->
  any_char p s = any_char q s.
Proof.
  intros Ha H. induction s as [|b r IH]; [done|]. cbn [all_chars] in Ha.
  apply andb_true_iff in Ha as [Hb Hr]. cbn [any_char].
  now rewrite (H b Hb), (IH Hr).
Qed.

Lemma alnum_char_not_removed b :
  isalnum_char b || Ascii.eqb b "_" || Ascii.eqb b "." = true ->
  negb (Ascii.eqb "_" b) && (negb (Ascii.eqb "." b) && true)
  = isalnum_char b.
Proof. destruct b as [[] [] [] [] [] [] [] []]; vm_compute; congruence. Qed.

(** The test of line 107 is the one the specification words. *)
Lemma isalnum_removed_spec v :
  isalnum (remove_char "." (remove_char "_" v))
  = alnum_with_underscores_dots v.
Proof.
  rewrite isalnum_alt, truthy_any_char, !any_char_remove, !all_chars_remove.
  unfold alnum_with_underscores_dots.
  rewrite (all_chars_ext _
    (fun c => isalnum_char c || Ascii.eqb c "_" || Ascii.eqb c ".")).
  2:{ intros b. rewrite (Ascii.eqb_sym "_" b), (Ascii.eqb_sym "." b).
      destruct (isalnum_char b), (Ascii.eqb b "_"), (Ascii.eqb b "."); done. }
  destruct (all_chars _ v) eqn:Ha; [|now rewrite andb_false_r].
  rewrite andb_true_r. cbn [andb].
  apply (any_char_within _ _ _ _ Ha). apply alnum_char_not_removed.
Qed.

Lemma value_commented_spec v : value_commented v = classify_commented v.
Proof.
  unfold value_commented, classify_commented.
  rewrite has_expression_char_spec, isalnum_removed_spec.
  destruct (startswith v "["), (startswith v DQ); done.
Qed.

End ClassifyFacts.

(** ** The indices the loop comes to *)

Module Visits.
Import PyStr Re Scanner Notions Invariant StrFacts PatternFacts ScannerFacts.

Lemma loop_body_stays_below lines k st st' :
  not_taken lines k -> i st < k -> loop_body lines st = Ok st' ->
  i st < i st' <= k.
Proof.
  intros Hn Hlt (line & Hl & Hcase)%loop_body_cases.
  destruct Hcase as
    [(out & v & Hp & ->)|[(out & v & Hp & ->)|
     [(out & v & popped & Hp & _ & ->)|(_ & _ & _ & ->)]]]; simpl.
  - destruct (Hn (i st) line out v Hl) as [H1 _]. specialize (H1 Hp). lia.
  - destruct (Hn (i st) line out v Hl) as [_ H2]. specialize (H2 Hp). lia.
  - lia.
  - lia.
Qed.

(** The loop comes to every index that no pattern takes from before. *)
Lemma loop_reaches lines k :
  k <= length lines -> not_taken lines k ->
  exists st, reachable lines st /\ i st = k.
Proof.
  intros Hk Hn.
  enough (forall n st, reachable lines st -> i st <= k -> k - i st <= n ->
            exists st', reachable lines st' /\ i st' = k) as H.
  { apply (H k initial); [constructor|simpl; lia..]. }
  induction n as [|n IH]; intros st Hr Hle Hn'.
  - exists st. split; [done|lia].
  - destruct (decide (i st = k)) as [|Hne]; [eauto|].
    destruct (loop_body_ok lines st) as (st' & Hb & _);
      [now apply reachable_invariant|lia|].
    assert (i st < k) as Hlt by lia.
    pose proof (loop_body_stays_below _ _ _ _ Hn Hlt Hb).
    apply (IH st'); [|lia..]. apply (reachable_step _ st); [done|lia|done].
Qed.

Lemma blank_lstrip s : all_chars isspace s = true -> lstrip s = EmptyString.
Proof.
  induction s as [|c r IH]; [done|]. cbn [all_chars lstrip].
  intros [-> Hr]%andb_true_iff. now apply IH.
Qed.




Lemma marker_not_closer line :
  startswith (strip line) MARKER = true -> strip line <> "]".
Proof. intros H Hc. now rewrite Hc in H. Qed.

Lemma marker_not_dangling line :
  startswith (strip line) MARKER = true -> dangling_ok (strip line) = false.
Proof.
  intros H%marker_is_comment. unfold dangling_ok. rewrite H.
  now destruct (truthy (strip line)).
Qed.


(** A line that starts with the marker comment is never taken from
    before. *)
Lemma marker_not_taken lines k line :
  lines !! k = Some line ->
  startswith (strip line) MARKER = true ->
  not_taken lines k.
Proof.
  intros Hl Hm j l out v Hj. split.
  - intros (indent & closer & l2 & Ho & Hc & Hs & Hl2 & Hd & _)%pattern1_inv
      Hjk.
    destruct (decide (k = j + 1)) as [->|].
    + rewrite Hl in Hc. injection Hc as <-.
      now apply marker_not_closer in Hm.
    + replace (j + 2) with k in Hl2 by lia. rewrite Hl in Hl2.
      injection Hl2 as <-. rewrite (marker_not_dangling _ Hm) in Hd. done.
  - intros (indent & opener & closer & l3 & _ & Ho & Hmo & Hc & Hs & Hl3
            & Hd & _)%pattern2_inv Hjk.
    destruct (decide (k = j + 1)) as [->|].
    { rewrite Hl in Ho. injection Ho as <-.
      rewrite (marker_not_array_open _ Hm) in Hmo. done. }
    destruct (decide (k = j + 2)) as [->|].
    { rewrite Hl in Hc. injection Hc as <-.
      now apply marker_not_closer in Hm. }
    replace (j + 3) with k in Hl3 by lia. rewrite Hl in Hl3.
    injection Hl3 as <-. rewrite (marker_not_dangling _ Hm) in Hd. done.
Qed.



End Visits.

(** ** The three patterns, one pass of the loop *)

Module Patterns.
Import PyStr Re Scanner Notions Invariant.
Import StrFacts PatternFacts ScannerFacts ClassifyFacts Visits.






(** C2. Pattern B: when the loop is at a line that starts, once stripped,
    with the marker comment, and the next three lines are an array opener,
    a line that is ["]"] once stripped and a line that passes the test on
    dangling values, one pass appends one assignment and moves the index
    by 4.  The value is the one the specification words
    ([classify_commented]): a bracketed value as it is, a quoted value in
    a one-element array, a value with one of [+ ( ) $ /] or made of
    alphanumeric characters, underscores and dots as it is, anything else
    in double quotes; it is what lines 96 to 112 compute.  On every
    input the loop does come to each line that starts with the marker
    comment: no pattern takes such a line from before.  The input of the
    specification gives [y = bar_var]. *)
Theorem pattern_B_replaces_four_lines :
  (forall (lines : list string) (st : state) line opener closer l3
          indent var_name,
      lines !! i st = Some line ->
      startswith (strip line) MARKER = true ->
      lines !! (i st + 1) = Some opener ->
      match_array_open opener = Some (indent, var_name) ->
      lines !! (i st + 2) = Some closer ->
      strip closer = "]" ->
      lines !! (i st + 3) = Some l3 ->
      dangling_ok (strip l3) = true ->
      loop_body lines st =
      Ok {| i := i st + 4;
            new_lines := new_lines st ++
              [indent +:+ var_name +:+ " = "
               +:+ classify_commented (strip l3) +:+ NL];
            modified := true;
            printed := printed st ++ [FixedCommentedArray var_name] |})
  /\ (forall (lines : list string) k line,
      lines !! k = Some line ->
      startswith (strip line) MARKER = true ->
      exists st, reachable lines st /\ i st = k)
  /\ (forall v, value_commented v = classify_commented v)
  /\ scan [MARKER +:+ NL; "y = [" +:+ NL; "]" +:+ NL; "bar_var" +:+ NL] =
     Ok {| i := 4;
           new_lines := ["y = bar_var" +:+ NL];
           modified := true;
           printed := [FixedCommentedArray "y"] |}.
Proof.
  split; [|split; [|split]].
  - intros lines st line opener closer l3 indent var_name
      Hl Hm Ho Hmo Hc Hs Hl3 Hd.
    unfold loop_body. rewrite Hl.
    assert (pattern1 lines (i st) line = None) as ->.
    { unfold pattern1. now rewrite (marker_not_array_open _ Hm). }
    rewrite (pattern2_fires _ _ _ _ _ _ _ _ Hm Ho Hmo Hc Hs Hl3 Hd).
    now rewrite value_commented_spec.
  - intros lines k line Hl Hm. apply loop_reaches.
    + apply lookup_lt_Some in Hl. lia.
    + eauto using marker_not_taken.
  - apply value_commented_spec.
  - vm_compute. done.
Qed.

Lemma pattern_B_witness :
  Examples.commented_array !! i initial = Some ("  " +:+ MARKER +:+ NL)
  /\ startswith (strip ("  " +:+ MARKER +:+ NL)) MARKER = true
  /\ match_array_open ("  deps = [" +:+ NL) = Some ("  ", "deps")
  /\ strip ("  ]" +:+ NL) = "]"
  /\ dangling_ok (strip ("    " +:+ DQ +:+ "//base" +:+ DQ +:+ NL)) = true
  /\ loop_body Examples.commented_array initial =
     Ok {| i := 4;
           new_lines :=
             ["  deps = [ " +:+ DQ +:+ "//base" +:+ DQ +:+ " ]" +:+ NL];
           modified := true;
           printed := [FixedCommentedArray "deps"] |}.
Proof.
  do 5 (split; [reflexivity|]).
  apply (proj1 pattern_B_replaces_four_lines Examples.commented_array
           initial ("  " +:+ MARKER +:+ NL) ("  deps = [" +:+ NL)
           ("  ]" +:+ NL) ("    " +:+ DQ +:+ "//base" +:+ DQ +:+ NL)
           "  " "deps");
    reflexivity.
Defined.



End Patterns.

(** ** What the patterns take as a dangling value *)

Module Dangling.
Import PyStr Re Scanner Files Notions Invariant.
Import StrFacts PatternFacts ScannerFacts ClassifyFacts.

(** C4. The specification asks that a line that starts with [if],
    [foreach] or [declare_args] is never taken as a dangling value.
    Pattern 3 tests for [declare_args] (line 126); Patterns 1 and 2 test
    for [if] and [foreach] only (lines 44, 45, 84 and 85), so they take a
    [declare_args] line: here Pattern 1 turns the start of a
    [declare_args] block into the quoted value of [x], and Pattern 2 does
    the same after the marker comment, while Pattern 3 leaves the same
    line alone after an incomplete assignment. *)
Theorem declare_args_taken_as_dangling_value :
  scan ["x = [" +:+ NL; "]" +:+ NL; "declare_args() {" +:+ NL] =
  Ok {| i := 3;
        new_lines := ["x = " +:+ DQ +:+ "declare_args() {" +:+ DQ +:+ NL];
        modified := true;
        printed := [FixedArray "x"] |}
  /\ scan [MARKER +:+ NL; "x = [" +:+ NL; "]" +:+ NL;
           "declare_args() {" +:+ NL] =
     Ok {| i := 4;
           new_lines := ["x = declare_args() {" +:+ NL];
           modified := true;
           printed := [FixedCommentedArray "x"] |}
  /\ scan ["x =" +:+ NL; "declare_args() {" +:+ NL] =
     Ok {| i := 2;
           new_lines := ["x =" +:+ NL; "declare_args() {" +:+ NL];
           modified := false;
           printed := [] |}.
Proof. vm_compute. done. Qed.

(** X2. What does hold of the block keywords: the line a pattern takes as
    a dangling value never starts with [if] or [foreach], and the line
    Pattern 3 takes never starts with [declare_args] either. *)
Theorem if_and_foreach_never_taken :
  (forall (lines : list string) k line out var_name,
      pattern1 lines k line = Some (out, var_name) ->
      exists l2,
        lines !! (k + 2) = Some l2
        /\ startswith (strip l2) "if" = false
        /\ startswith (strip l2) "foreach" = false)
  /\ (forall (lines : list string) k line out var_name,
      pattern2 lines k line = Some (out, var_name) ->
      exists l3,
        lines !! (k + 3) = Some l3
        /\ startswith (strip l3) "if" = false
        /\ startswith (strip l3) "foreach" = false)
  /\ (forall (lines : list string) k line out var_name,
      pattern3 lines k line = Some (out, var_name) ->
      startswith (strip line) "if" = false
      /\ startswith (strip line) "foreach" = false
      /\ startswith (strip line) "declare_args" = false).
Proof.
  assert (forall d, dangling_ok d = true ->
            startswith d "if" = false /\ startswith d "foreach" = false)
    as Hd.
  { intros d. unfold dangling_ok.
    destruct (startswith d "if"), (startswith d "foreach"); try done;
      rewrite ?andb_false_r; done. }
  split; [|split].
  - intros lines k line out v
      (indent & closer & l2 & _ & _ & _ & Hl & Hok & _)%pattern1_inv.
    exists l2. split; [done|]. now apply Hd.
  - intros lines k line out v
      (indent & opener & closer & l3 & _ & _ & _ & _ & _ & Hl & Hok & _)
        %pattern2_inv.
    exists l3. split; [done|]. now apply Hd.
  - intros lines k line out v (indent & before & _ & He & _)%pattern3_inv.
    unfold expression_ok in He.
    destruct (startswith (strip line) "if"),
      (startswith (strip line) "foreach"),
      (startswith (strip line) "declare_args"); try done;
      rewrite ?andb_false_r in He; done.
Qed.

Lemma if_and_foreach_witness :
  pattern1 Examples.indented_array 0 ("  y = [" +:+ NL) =
    Some ("  y = " +:+ DQ +:+ "bar baz" +:+ DQ +:+ NL, "y")
  /\ exists l2,
       Examples.indented_array !! (0 + 2) = Some l2
       /\ startswith (strip l2) "if" = false
       /\ startswith (strip l2) "foreach" = false.
Proof.
  split; [reflexivity|].
  apply (proj1 if_and_foreach_never_taken Examples.indented_array 0
           ("  y = [" +:+ NL)
           ("  y = " +:+ DQ +:+ "bar baz" +:+ DQ +:+ NL) "y").
  reflexivity.
Defined.

(** C9. The [pop] of Pattern C is safe: whenever the test of Pattern 3
    succeeds in a state the loop goes through, the index is positive, the
    input line before it is an incomplete assignment once stripped, the
    output built so far ends with that very line, and the pass takes
    exactly that line away, appends the completed assignment and prints
    the message of Pattern 3.  So [pop] never raises, and the scan of any
    input returns. *)
Theorem pop_discards_the_incomplete_line :
  (forall (lines : list string) (st : state) line out var_name,
      reachable lines st ->
      lines !! i st = Some line ->
      pattern3 lines (i st) line = Some (out, var_name) ->
      exists before popped,
        0 < i st
        /\ lines !! (i st - 1) = Some before
        /\ is_Some (match_incomplete (strip before))
        /\ new_lines st = popped ++ [before]
        /\ pop (new_lines st) = Ok popped
        /\ loop_body lines st =
           Ok {| i := i st + 1;
                 new_lines := popped ++ [out];
                 modified := true;
                 printed := printed st ++ [FixedDangling var_name] |})
  /\ (forall lines, exists st, scan lines = Ok st).
Proof.
  split.
  - intros lines st line out var_name Hr Hl H3.
    destruct (pattern3_excludes _ _ _ _ _ H3) as [H1 H2].
    pose proof H3 as (indent & before & Hk & He & Hb & Hi & _)%pattern3_inv.
    destruct (inv_last _ _ (reachable_invariant _ _ Hr) before Hk Hb)
      as (popped & Hnl & _); [now rewrite Hi|].
    exists before, popped. split; [done|]. split; [done|].
    split; [now rewrite Hi|]. split; [done|].
    split; [rewrite Hnl; apply pop_snoc|].
    unfold loop_body. rewrite Hl, H1, H2, H3, Hnl, pop_snoc. done.
  - intros lines. destruct (scan_returns lines) as (st & Hs & _). eauto.
Qed.

Lemma pop_witness :
  reachable Examples.incomplete_assignment Examples.after_incomplete
  /\ pattern3 Examples.incomplete_assignment 1 ("    some value" +:+ NL) =
     Some ("z = " +:+ DQ +:+ "some value" +:+ DQ +:+ NL, "z")
  /\ exists before popped,
       0 < i Examples.after_incomplete
       /\ Examples.incomplete_assignment !! (i Examples.after_incomplete - 1)
          = Some before
       /\ is_Some (match_incomplete (strip before))
       /\ new_lines Examples.after_incomplete = popped ++ [before]
       /\ pop (new_lines Examples.after_incomplete) = Ok popped
       /\ loop_body Examples.incomplete_assignment Examples.after_incomplete =
          Ok {| i := 2;
                new_lines := popped ++
                  ["z = " +:+ DQ +:+ "some value" +:+ DQ +:+ NL];
                modified := true;
                printed := [FixedDangling "z"] |}.
Proof.
  assert (reachable Examples.incomplete_assignment Examples.after_incomplete)
    as Hr.
  { apply (reachable_step _ initial); [constructor|simpl; lia|reflexivity]. }
  split; [exact Hr|]. split; [reflexivity|].
  apply (proj1 pop_discards_the_incomplete_line
           Examples.incomplete_assignment Examples.after_incomplete
           ("    some value" +:+ NL)
           ("z = " +:+ DQ +:+ "some value" +:+ DQ +:+ NL) "z" Hr);
    reflexivity.
Defined.





End Dangling.

(** ** Every input line is accounted for *)

Module Accounting.
Import PyStr Re Scanner Notions Invariant ScannerFacts.

(** C7. For every input, the scan returns and the input is cut into
    consecutive blocks, one per output line and in the same order: a
    block is one line, copied as it is, or the three, four or two lines
    one pattern takes, answered by the assignment it writes.  So every
    input line is in exactly one block: copied, or taken by one pattern;
    the output can be shorter than the input. *)
Theorem every_line_accounted_once :
  forall lines : list string,
    exists st, scan lines = Ok st /\ accounted lines (new_lines st).
Proof.
  intros lines. destruct (scan_returns lines) as (st & Hs & Hr & Hi).
  exists st. split; [done|].
  pose proof (inv_accounted _ _ (reachable_invariant _ _ Hr)) as Ha.
  now rewrite Hi, firstn_all in Ha.
Qed.

End Accounting.

(** ** Files: what is written, and what happens when a read fails *)

Module FileFacts.
Import PyStr Re Scanner Files Notions Invariant ScannerFacts.










End FileFacts.

(** ** The number of lines written *)

Module CountingFacts.
Import PyStr Re Scanner Notions Invariant ScannerFacts Counting.

Lemma saved_app ms1 ms2 : saved (ms1 ++ ms2) = saved ms1 + saved ms2.
Proof.
  induction ms1 as [|m ms IH]; [done|]. simpl. rewrite IH. lia.
Qed.

Lemma pop_length l popped : pop l = Ok popped -> length l = S (length popped).
Proof.
  destruct l as [|a l] using rev_ind; [done|].
  rewrite pop_snoc. intros [= <-]. rewrite length_app. simpl. lia.
Qed.

Lemma reachable_count lines st :
  reachable lines st ->
  length (new_lines st) + saved (printed st) = i st.
Proof.
  induction 1 as [|st st' Hr IH Hlt Hb]; [done|].
  apply loop_body_cases in Hb as (line & Hl & Hcase).
  destruct Hcase as
    [(out & v & Hp & ->)|[(out & v & Hp & ->)|
     [(out & v & popped & Hp & Hpop & ->)|(_ & _ & _ & ->)]]];
    cbn [i new_lines printed]; rewrite ?length_app, ?saved_app; simpl;
    try lia.
  apply pop_length in Hpop. lia.
Qed.

Lemma reachable_saved lines st :
  reachable lines st -> printed st <> [] -> 0 < saved (printed st).
Proof.
  induction 1 as [|st st' Hr IH Hlt Hb]; [done|].
  apply loop_body_cases in Hb as (line & Hl & Hcase).
  destruct Hcase as
    [(out & v & Hp & ->)|[(out & v & Hp & ->)|
     [(out & v & popped & Hp & Hpop & ->)|(_ & _ & _ & ->)]]];
    cbn [printed]; rewrite ?saved_app; simpl; try lia.
  done.
Qed.

(** X4. The scan never adds a line: the lines written and the lines the
    fixes saved (two for each fix of Pattern 1, three for Pattern 2, one
    for Pattern 3) add up to the lines read.  So a file reported as
    modified gets shorter, and one not modified keeps its lines. *)
Theorem scan_line_count :
  forall lines : list string,
    exists st,
      scan lines = Ok st
      /\ length (new_lines st) + saved (printed st) = length lines
      /\ (modified st = true -> length (new_lines st) < length lines)
      /\ (modified st = false -> new_lines st = lines).
Proof.
  intros lines. destruct (scan_returns lines) as (st & Hs & Hr & Hi).
  pose proof (reachable_invariant _ _ Hr) as Hinv.
  pose proof (reachable_count _ _ Hr) as Hc. rewrite Hi in Hc.
  exists st. split; [done|]. split; [done|]. split.
  - intros Hm. apply (inv_modified _ _ Hinv) in Hm.
    pose proof (reachable_saved _ _ Hr Hm). lia.
  - intros Hm. rewrite (inv_unmodified _ _ Hinv Hm), Hi. apply firstn_all.
Qed.

End CountingFacts.

(** ** Reading back what was written *)

Module LinesFacts.
Import PyStr Re Scanner Files Notions Invariant Lines.
Import StrFacts PatternFacts ShapeFacts ScannerFacts Visits.

Lemma append_assoc (a b c : string) : (a +:+ b) +:+ c = a +:+ b +:+ c.
Proof.
  induction a as [|x a IH]; [done|]. rewrite !app_cons. now rewrite IH.
Qed.

Lemma append_nil_r (a : string) : a +:+ EmptyString = a.
Proof. induction a as [|x a IH]; [done|]. rewrite app_cons. now rewrite IH. Qed.

Lemma all_chars_app p a b :
  all_chars p (a +:+ b) = all_chars p a && all_chars p b.
Proof.
  induction a as [|x a IH]; [done|]. rewrite app_cons. cbn [all_chars].
  now rewrite IH, andb_assoc.
Qed.

Lemma no_newline_app a b :
  no_newline (a +:+ b) = no_newline a && no_newline b.
Proof. apply all_chars_app. Qed.

(** *** [universal_newlines] *)

Lemma universal_newlines_no_cr_aux n :
  forall s, String.length s <= n -> no_cr (universal_newlines s) = true.
Proof.
  induction n as [|n IH]; intros s Hn.
  - destruct s; [done|]. simpl in Hn. lia.
  - destruct s as [|c r]; [done|]. simpl in Hn. cbn [universal_newlines].
    destruct (Ascii.eqb c "013") eqn:Hc.
    + destruct r as [|d r']; [done|]. simpl in Hn.
      destruct (Ascii.eqb d "010").
      * cbn [no_cr all_chars]. unfold no_cr in IH. rewrite IH by lia. done.
      * cbn [no_cr all_chars]. unfold no_cr in IH.
        rewrite (IH (String d r')) by (simpl; lia). done.
    + unfold no_cr in *. cbn [all_chars]. rewrite Hc, IH by lia. done.
Qed.

Lemma universal_newlines_no_cr s : no_cr (universal_newlines s) = true.
Proof. now apply (universal_newlines_no_cr_aux (String.length s)). Qed.

Lemma universal_newlines_id s : no_cr s = true -> universal_newlines s = s.
Proof.
  induction s as [|c r IH]; [done|]. unfold no_cr. cbn [all_chars].
  intros [Hc Hr]%andb_true_iff. cbn [universal_newlines].
  apply negb_true_iff in Hc. rewrite Hc. now rewrite IH.
Qed.

(** *** [split_lines] *)

Lemma complete_cons c l :
  Ascii.eqb c "010" = false -> Ascii.eqb c "013" = false ->
  complete l -> complete (String c l).
Proof.
  intros H1 H2 (body & -> & Hb). exists (String c body). split; [done|].
  unfold no_newline in *. cbn [all_chars]. now rewrite H1, H2, Hb.
Qed.

Lemma partial_cons c l :
  Ascii.eqb c "010" = false -> Ascii.eqb c "013" = false ->
  no_newline l = true -> partial (String c l).
Proof.
  intros H1 H2 Hl. split; [done|]. unfold no_newline in *.
  cbn [all_chars]. now rewrite H1, H2, Hl.
Qed.

Lemma complete_NL : complete NL.
Proof. now exists EmptyString. Qed.

Lemma well_formed_cons l ls :
  complete l -> well_formed ls -> well_formed (l :: ls).
Proof.
  intros Hl [Hls|(front & last & -> & Hf & Hp)].
  - left. now constructor.
  - right. exists (l :: front), last. split; [done|]. split; [|done].
    now constructor.
Qed.

Lemma split_lines_well_formed s :
  no_cr s = true -> well_formed (split_lines s).
Proof.
  induction s as [|c r IH]; [now left|]. unfold no_cr. cbn [all_chars].
  intros [Hc Hr]%andb_true_iff. apply negb_true_iff in Hc.
  specialize (IH Hr). cbn [split_lines].
  destruct (Ascii.eqb c "010") eqn:Hn.
  - apply Ascii.eqb_eq in Hn as ->.
    apply well_formed_cons; [apply complete_NL|done].
  - destruct (split_lines r) as [|l ls] eqn:Hs.
    + right. exists [], (String c EmptyString). split; [done|].
      split; [constructor|]. now apply partial_cons.
    + destruct IH as [Hall|(front & last & Heq & Hf & Hp)].
      * left. inversion Hall; subst. constructor; [|done].
        now apply complete_cons.
      * destruct front as [|f front]; simpl in Heq.
        -- injection Heq as -> ->. right. exists [], (String c last).
           split; [done|]. split; [constructor|].
           apply partial_cons; [done..|apply Hp].
        -- injection Heq as -> ->. right.
           exists (String c f :: front), last. split; [done|].
           inversion Hf; subst. split; [|done]. constructor; [|done].
           now apply complete_cons.
Qed.

Lemma split_lines_complete body rest :
  no_newline body = true ->
  split_lines (body +:+ NL +:+ rest) = (body +:+ NL) :: split_lines rest.
Proof.
  induction body as [|c b IH]; [done|]. unfold no_newline. cbn [all_chars].
  intros [[Hc _]%andb_true_iff Hb]%andb_true_iff.
  apply negb_true_iff in Hc. rewrite !app_cons. cbn [split_lines].
  rewrite Hc. now rewrite (IH Hb).
Qed.

Lemma split_lines_partial l :
  partial l -> split_lines l = [l].
Proof.
  intros [Hne Hl]. induction l as [|c b IH]; [done|].
  unfold no_newline in Hl. cbn [all_chars] in Hl.
  apply andb_true_iff in Hl as [[Hc _]%andb_true_iff Hb].
  apply negb_true_iff in Hc. cbn [split_lines]. rewrite Hc.
  destruct b as [|d b']; [done|]. now rewrite IH.
Qed.

Lemma writelines_cons l ls : writelines (l :: ls) = l +:+ writelines ls.
Proof. done. Qed.

Lemma writelines_app ls1 ls2 :
  writelines (ls1 ++ ls2) = writelines ls1 +:+ writelines ls2.
Proof.
  induction ls1 as [|l ls IH]; [done|].
  change ((l :: ls) ++ ls2) with (l :: (ls ++ ls2)).
  rewrite !writelines_cons, IH. now rewrite append_assoc.
Qed.

Lemma split_lines_writelines_complete front rest :
  Forall complete front ->
  split_lines (writelines front +:+ rest) = front ++ split_lines rest.
Proof.
  induction 1 as [|l ls (body & -> & Hb) Hls IH]; [done|].
  rewrite writelines_cons, !append_assoc.
  rewrite (split_lines_complete _ _ Hb), IH. done.
Qed.

Lemma complete_no_cr l : complete l -> no_cr l = true.
Proof.
  intros (body & -> & Hb). unfold no_cr. rewrite all_chars_app.
  apply andb_true_iff. split; [|done].
  unfold no_newline in Hb. clear -Hb.
  induction body as [|c b IH]; [done|]. cbn [all_chars] in *.
  apply andb_true_iff in Hb as [[_ Hc]%andb_true_iff Hb].
  now rewrite Hc, IH.
Qed.

Lemma no_newline_no_cr l : no_newline l = true -> no_cr l = true.
Proof.
  unfold no_newline, no_cr. induction l as [|c b IH]; [done|].
  cbn [all_chars]. intros [[_ Hc]%andb_true_iff Hb]%andb_true_iff.
  now rewrite Hc, IH.
Qed.

Lemma writelines_no_cr ls :
  Forall (fun l => no_cr l = true) ls -> no_cr (writelines ls) = true.
Proof.
  induction 1 as [|l ls Hl Hls IH]; [done|].
  rewrite writelines_cons. unfold no_cr in *. now rewrite all_chars_app, Hl, IH.
Qed.

(** What is written is read back as it was. *)
Lemma readlines_writelines ls :
  well_formed ls -> readlines (writelines ls) = ls.
Proof.
  intros Hwf. unfold readlines.
  assert (no_cr (writelines ls) = true) as Hcr.
  { apply writelines_no_cr.
    destruct Hwf as [Hall|(front & last & -> & Hf & Hp)].
    - eapply Forall_impl; [exact Hall|]. apply complete_no_cr.
    - apply Forall_app. split.
      + eapply Forall_impl; [exact Hf|]. apply complete_no_cr.
      + constructor; [|done]. apply no_newline_no_cr, Hp. }
  rewrite (universal_newlines_id _ Hcr).
  destruct Hwf as [Hall|(front & last & -> & Hf & Hp)].
  - rewrite <- (append_nil_r (writelines ls)).
    rewrite (split_lines_writelines_complete _ _ Hall). simpl.
    now rewrite app_nil_r.
  - rewrite writelines_app, (split_lines_writelines_complete _ _ Hf).
    change (writelines [last]) with (last +:+ EmptyString).
    now rewrite append_nil_r, (split_lines_partial _ Hp).
Qed.

Lemma readlines_well_formed text : well_formed (readlines text).
Proof. apply split_lines_well_formed, universal_newlines_no_cr. Qed.

(** *** The lines the scan writes *)

Lemma all_chars_impl (p q : ascii -> bool) s :
  (forall c, p c = true -> q c = true) ->
  all_chars p s = true -> all_chars q s = true.
Proof.
  intros H. induction s as [|c r IH]; [done|]. cbn [all_chars].
  intros [Hc Hr]%andb_true_iff. now rewrite (H c Hc), IH.
Qed.

Lemma all_chars_lstrip p s :
  all_chars p s = true -> all_chars p (lstrip s) = true.
Proof.
  induction s as [|c r IH]; [done|]. cbn [all_chars lstrip].
  intros [Hc Hr]%andb_true_iff. destruct (isspace c); [now apply IH|].
  cbn [all_chars]. now rewrite Hc, Hr.
Qed.

Lemma all_chars_rstrip p s :
  all_chars p s = true -> all_chars p (rstrip s) = true.
Proof.
  induction s as [|c r IH]; [done|]. cbn [all_chars rstrip].
  intros [Hc Hr]%andb_true_iff. specialize (IH Hr).
  destruct (rstrip r); [destruct (isspace c)|]; cbn [all_chars] in *;
    now rewrite ?Hc, ?IH.
Qed.

Lemma rstrip_app_blank a w : blank w -> rstrip (a +:+ w) = rstrip a.
Proof.
  intros Hw. induction a as [|c a IH].
  - now rewrite app_nil, (rstrip_blank _ Hw).
  - rewrite app_cons. cbn [rstrip]. now rewrite IH.
Qed.

Lemma lstrip_app_blank a w :
  blank w -> rstrip (lstrip (a +:+ w)) = rstrip (lstrip a).
Proof.
  intros Hw. induction a as [|c a IH].
  - rewrite app_nil. cbn [lstrip rstrip]. rewrite (blank_lstrip w Hw). done.
  - rewrite app_cons. cbn [lstrip]. destruct (isspace c); [done|].
    rewrite <- app_cons. now apply rstrip_app_blank.
Qed.

Lemma strip_line l :
  complete l \/ partial l -> no_newline (strip l) = true.
Proof.
  unfold strip. intros [(body & -> & Hb)|[_ Hl]].
  - rewrite lstrip_app_blank by done.
    now apply all_chars_rstrip, all_chars_lstrip.
  - now apply all_chars_rstrip, all_chars_lstrip.
Qed.

Lemma prefix_no_newline l a b :
  complete l \/ partial l -> l = a +:+ b -> b <> EmptyString ->
  no_newline a = true.
Proof.
  intros [(body & -> & Hb)|[_ Hl]] Heq Hne.
  - revert body Hb Heq. induction a as [|c a IH]; intros body Hb Heq; [done|].
    destruct body as [|d body].
    + rewrite app_cons, app_nil in Heq. injection Heq as _ Heq.
      destruct a; [rewrite app_nil in Heq; congruence|done].
    + rewrite !app_cons in Heq. injection Heq as -> Heq.
      unfold no_newline in *. cbn [all_chars] in *.
      apply andb_true_iff in Hb as [Hc Hb]. rewrite Hc. cbn [andb].
      now apply (IH body).
  - subst l. rewrite no_newline_app in Hl.
    now apply andb_true_iff in Hl as [Ha _].
Qed.

Lemma identifier_no_newline v : is_identifier v -> no_newline v = true.
Proof.
  intros (c & r & -> & Hc & Hr). unfold no_newline. cbn [all_chars].
  apply andb_true_iff. split.
  - clear -Hc. destruct c as [[] [] [] [] [] [] [] []]; vm_compute in *;
      congruence.
  - revert Hr. apply all_chars_impl. clear.
    intros c Hc. destruct c as [[] [] [] [] [] [] [] []]; vm_compute in *;
      congruence.
Qed.

Lemma identifier_not_empty v : is_identifier v -> v <> EmptyString.
Proof. now intros (c & r & -> & _). Qed.

Lemma array_open_no_newline line indent var_name :
  complete line \/ partial line ->
  match_array_open line = Some (indent, var_name) ->
  no_newline indent = true /\ no_newline var_name = true.
Proof.
  intros Hl (ws1 & ws2 & ws3 & Heq & _ & Hv & _)
    %(proj1 (array_open_shape_iff _ _ _)).
  split; [|now apply identifier_no_newline].
  apply (prefix_no_newline _ _ _ Hl Heq).
  destruct Hv as (c & r & -> & _). now rewrite app_cons.
Qed.

Lemma assignment_complete indent var_name value :
  no_newline indent = true -> no_newline var_name = true ->
  no_newline value = true ->
  complete (assignment indent var_name value).
Proof.
  intros Hi Hv Hval. exists (indent +:+ var_name +:+ " = " +:+ value).
  split; [unfold assignment; now rewrite !append_assoc|].
  rewrite !no_newline_app, Hi, Hv, Hval. done.
Qed.

Lemma value_direct_or_quoted_no_newline v :
  no_newline v = true -> no_newline (value_direct_or_quoted v) = true.
Proof.
  intros Hv. unfold value_direct_or_quoted, quoted.
  destruct (_ || _); [done|]. now rewrite !no_newline_app, Hv.
Qed.

Lemma value_commented_no_newline v :
  no_newline v = true -> no_newline (value_commented v) = true.
Proof.
  intros Hv. unfold value_commented, quoted.
  repeat destruct (_ || _); try destruct (startswith v "[");
    rewrite ?no_newline_app, ?Hv; done.
Qed.

Lemma pop_inv l popped : pop l = Ok popped -> exists x, l = popped ++ [x].
Proof.
  destruct l as [|a l] using rev_ind; [done|].
  rewrite pop_snoc. intros [= <-]. eauto.
Qed.

(** The lines of a well formed list. *)
Lemma well_formed_lookup ls k l :
  well_formed ls -> ls !! k = Some l ->
  (complete l \/ partial l) /\ (k + 1 < length ls -> complete l).
Proof.
  intros [Hall|(front & last & -> & Hf & Hp)] Hl.
  - rewrite Forall_forall in Hall.
    assert (complete l) by (apply Hall; eapply list_elem_of_lookup_2; eauto).
    auto.
  - rewrite length_app. simpl.
    destruct (decide (k < length front)) as [Hlt|Hge].
    + rewrite lookup_app_l in Hl by done. rewrite Forall_forall in Hf.
      assert (complete l)
        by (apply Hf; eapply list_elem_of_lookup_2; eauto).
      auto.
    + rewrite lookup_app_r in Hl by lia.
      destruct (k - length front) eqn:Hk; [|now destruct n].
      injection Hl as <-. split; [now right|lia].
Qed.

(** On well formed input the loop writes complete lines, but for a
    partial last line that it copies. *)
Lemma reachable_well_formed lines st :
  well_formed lines -> reachable lines st ->
  Forall complete (new_lines st)
  \/ (i st = length lines
      /\ exists front last,
           new_lines st = front ++ [last]
           /\ Forall complete front /\ partial last).
Proof.
  intros Hwf. induction 1 as [|st st' Hr IH Hlt Hb]; [now left|].
  destruct IH as [IH|[Hi _]]; [|lia].
  apply loop_body_cases in Hb as (line & Hl & Hcase).
  destruct (well_formed_lookup _ _ _ Hwf Hl) as [Hline Hlast].
  destruct Hcase as
    [(out & v & Hp & ->)|[(out & v & Hp & ->)|
     [(out & v & popped & Hp & Hpop & ->)|(_ & _ & _ & ->)]]];
    cbn [i new_lines].
  - left. apply Forall_app. split; [done|]. constructor; [|done].
    apply pattern1_inv in Hp
      as (indent & closer & l2 & Ho & _ & _ & Hl2 & _ & ->).
    destruct (array_open_no_newline _ _ _ Hline Ho) as [Hind Hv].
    destruct (well_formed_lookup _ _ _ Hwf Hl2) as [H2 _].
    apply assignment_complete; [done..|].
    now apply value_direct_or_quoted_no_newline, strip_line.
  - left. apply Forall_app. split; [done|]. constructor; [|done].
    apply pattern2_inv in Hp
      as (indent & opener & closer & l3 & _ & Ho & Hmo & _ & _ & Hl3 & _ & ->).
    destruct (well_formed_lookup _ _ _ Hwf Ho) as [Hopener _].
    destruct (array_open_no_newline _ _ _ Hopener Hmo) as [Hind Hv].
    destruct (well_formed_lookup _ _ _ Hwf Hl3) as [H3 _].
    apply assignment_complete; [done..|].
    now apply value_commented_no_newline, strip_line.
  - left. apply pop_inv in Hpop as [x Hx]. rewrite Hx in IH.
    apply Forall_app in IH as [IH _].
    apply Forall_app. split; [done|]. constructor; [|done].
    apply pattern3_inv in Hp as (indent & before & _ & _ & _ & Hi & ->).
    pose proof (match_incomplete_stripped_indent _ _ _ Hi) as ->.
    apply (proj1 (incomplete_shape_iff _ _ _)) in Hi
      as (ws1 & ws2 & _ & _ & Hv & _).
    apply assignment_complete; [done|now apply identifier_no_newline|].
    now apply value_direct_or_quoted_no_newline, strip_line.
  - destruct (decide (i st + 1 < length lines)) as [Hin|Hout].
    + left. apply Forall_app. split; [done|]. constructor; [auto|done].
    + destruct Hline as [Hc|Hp].
      * left. apply Forall_app. split; [done|]. now constructor.
      * right. split; [lia|]. now exists (new_lines st), line.
Qed.

(** X5. What the script writes is read back as the lines it wrote: on the
    lines of any text, the scan returns a list of complete lines (with at
    most a last line that has no newline), and such a list, written with
    [writelines] and read with [readlines], comes back unchanged. *)
Theorem written_lines_read_back :
  (forall text : string,
      exists st,
        scan (readlines text) = Ok st
        /\ well_formed (new_lines st)
        /\ readlines (writelines (new_lines st)) = new_lines st)
  /\ (forall text : string, well_formed (readlines text))
  /\ (forall ls : list string,
      well_formed ls -> readlines (writelines ls) = ls).
Proof.
  split; [|split; [apply readlines_well_formed|apply readlines_writelines]].
  intros text.
  destruct (scan_returns (readlines text)) as (st & Hs & Hr & Hi).
  assert (well_formed (new_lines st)) as Hwf.
  { destruct (reachable_well_formed _ _ (readlines_well_formed text) Hr)
      as [Hall|(_ & front & last & Heq & Hf & Hp)]; [now left|].
    right. now exists front, last. }
  exists st. split; [done|]. split; [done|].
  now apply readlines_writelines.
Qed.

Lemma written_lines_witness :
  well_formed ["a" +:+ NL; "b"]
  /\ readlines (writelines ["a" +:+ NL; "b"]) = ["a" +:+ NL; "b"].
Proof.
  assert (well_formed ["a" +:+ NL; "b"]) as Hwf.
  { right. exists ["a" +:+ NL], "b". split; [reflexivity|].
    split; [|split; [discriminate|reflexivity]].
    constructor; [|constructor]. exists "a". split; reflexivity. }
  split; [exact Hwf|].
  apply (proj2 (proj2 written_lines_read_back) _ Hwf).
Defined.

End LinesFacts.

(** ** A second run of the scan *)

Module Repeat.
Import PyStr Scanner Files.


End Repeat.

(** ** The pass of [fix_incomplete_assignments.py] *)

Module IncompleteFacts.
Import PyStr Re Scanner Files Notions Lines Incomplete.
Import StrFacts PatternFacts ShapeFacts Visits LinesFacts.

(** The inner loop stops at the first line that is no comment. *)
Lemma collect_comments_spec fuel (lines : list string) j acc :
  length lines - j <= fuel ->
  exists cs j',
    collect_comments fuel lines j acc = Ok (acc ++ cs, j')
    /\ j <= j'
    /\ j' <= Nat.max j (length lines)
    /\ cs = take (j' - j) (drop j lines)
    /\ length cs = j' - j
    /\ Forall (fun l => startswith (strip l) "#" = true) cs
    /\ (forall l, lines !! j' = Some l -> startswith (strip l) "#" = false).
Proof.
  revert j acc. induction fuel as [|fuel IH]; intros j acc Hf.
  - exists [], j. cbn [collect_comments].
    destruct (lines !! j) as [l|] eqn:Hl.
    + apply lookup_lt_Some in Hl. lia.
    + rewrite app_nil_r, Nat.sub_diag. repeat split; try done; try lia.
  - cbn [collect_comments]. destruct (lines !! j) as [l|] eqn:Hl.
    + destruct (startswith (strip l) "#") eqn:Hc.
      * destruct (IH (j + 1) (acc ++ [l])) as
          (cs & j' & -> & Hle & Hlen & -> & Hn & Hall & Hstop); [lia|].
        exists (l :: take (j' - (j + 1)) (drop (j + 1) lines)), j'.
        pose proof (lookup_lt_Some _ _ _ Hl).
        split; [now rewrite <- app_assoc|]. split; [lia|].
        split; [lia|]. split.
        { replace (j' - j) with (S (j' - (j + 1))) by lia.
          rewrite (drop_S _ _ _ Hl). simpl.
          now replace (S j) with (j + 1) by lia. }
        split; [simpl; lia|]. split; [now constructor|done].
      * exists [], j. rewrite app_nil_r, Nat.sub_diag.
        repeat split; try done; try lia. intros l' Hl'. congruence.
    + exists [], j. rewrite app_nil_r, Nat.sub_diag.
      repeat split; try done; try lia. intros l' Hl'. congruence.
Qed.

(** The two ways through the body of the outer loop. *)
Lemma incomplete_loop_body_cases lines st :
  i st < length lines ->
  exists line, lines !! i st = Some line /\
    ((exists indent var_name cs,
        match_incomplete line = Some (indent, var_name)
        /\ cs = take (length cs) (drop (i st + 1) lines)
        /\ Forall (fun l => startswith (strip l) "#" = true) cs
        /\ (forall l, lines !! (i st + 1 + length cs) = Some l ->
              startswith (strip l) "#" = false)
        /\ i st + 1 + length cs <= length lines
        /\ loop_body lines st =
           Ok {| i := i st + 1 + length cs;
                 new_lines := new_lines st ++ array_block indent var_name cs;
                 modified := true;
                 printed := printed st ++ [FixedIncomplete var_name] |})
     \/ (match_incomplete line = None
         /\ loop_body lines st =
            Ok {| i := i st + 1;
                  new_lines := new_lines st ++ [line];
                  modified := modified st;
                  printed := printed st |})).
Proof.
  intros Hlt. destruct (lookup_lt_is_Some_2 _ _ Hlt) as [line Hl].
  exists line. split; [done|]. unfold loop_body. rewrite Hl.
  destruct (match_incomplete line) as [[indent v]|] eqn:Hm; [|now right].
  left. destruct (collect_comments_spec (length lines) lines (i st + 1) [])
    as (cs & j' & -> & Hle & Hlen & Hcs & Hn & Hall & Hstop); [lia|].
  exists indent, v, cs.
  assert (j' = i st + 1 + length cs) as -> by lia.
  split; [done|]. split; [rewrite Hcs at 1; f_equal; lia|]. split; [done|].
  split; [done|]. split; [|done].
  lia.
Qed.

Lemma incomplete_while_loop_returns lines fuel st :
  reachable lines st -> i st <= length lines ->
  length lines - i st <= fuel ->
  exists st', while_loop fuel lines st = Ok st'
    /\ reachable lines st' /\ i st' = length lines.
Proof.
  revert st. induction fuel as [|fuel IH]; intros st Hr Hb Hf.
  - exists st. cbn [while_loop].
    destruct (i st <? length lines) eqn:Hlt.
    + apply Nat.ltb_lt in Hlt. lia.
    + split; [done|]. split; [done|]. lia.
  - cbn [while_loop]. destruct (i st <? length lines) eqn:Hlt.
    + apply Nat.ltb_lt in Hlt.
      destruct (incomplete_loop_body_cases lines st Hlt) as (line & Hl & Hcase).
      destruct Hcase as
        [(indent & v & cs & _ & _ & _ & _ & Hle & Hb')|(_ & Hb')];
        rewrite Hb'; apply IH; cbn [i]; try lia;
        (apply (reachable_step _ st); [done|lia|done]).
    + apply Nat.ltb_ge in Hlt. exists st. split; [done|]. split; [done|]. lia.
Qed.

(** The scan of any list of lines returns. *)
Lemma incomplete_scan_returns lines :
  exists st, scan lines = Ok st /\ reachable lines st
    /\ i st = length lines.
Proof.
  apply incomplete_while_loop_returns; [constructor|simpl; lia..].
Qed.

(** *** The lines the pass writes are no incomplete assignments *)

Lemma not_incomplete_head ws c r :
  blank ws -> isspace c = false -> ident_start c = false ->
  match_incomplete (ws +:+ String c r) = None.
Proof.
  intros Hw Hs Hi. unfold match_incomplete.
  rewrite (proj2 (span_spec isspace _ ws (String c r))) by done.
  cbn [identifier]. now rewrite Hi.
Qed.

Lemma array_open_not_incomplete line indent var_name :
  match_array_open line = Some (indent, var_name) ->
  match_incomplete line = None.
Proof.
  intros (r1 & r2 & r3 & _ & Hi & He & Hb & _)%match_array_open_inv.
  unfold match_incomplete. rewrite <- span_snd_lstrip in Hi.
  destruct (span isspace line) as [ind r0]. cbn [snd] in Hi.
  rewrite Hi, He. destruct (blank_to_end r2) eqn:Hr; [|done].
  now rewrite (blank_lstrip _ Hr) in Hb.
Qed.

Lemma blank_app a b : blank a -> blank b -> blank (a +:+ b).
Proof. unfold blank. intros Ha Hb. now rewrite all_chars_app, Ha, Hb. Qed.

Lemma startswith_hash s :
  startswith s "#" = true -> exists r, s = String "#" r.
Proof. apply startswith_char. Qed.

Lemma inside_array_not_incomplete indent comment_line :
  blank indent ->
  Forall (fun l => match_incomplete l = None)
         (inside_array indent comment_line).
Proof.
  intros Hi. unfold inside_array.
  assert (forall x, match_incomplete (indent +:+ "  # " +:+ x +:+ NL) = None)
    as Hhash.
  { intros x. change ("  # " +:+ x +:+ NL) with ("  " +:+ String "#" (" " +:+ x +:+ NL)).
    rewrite <- append_assoc. apply not_incomplete_head; [|done..].
    now apply blank_app. }
  destruct (_ && _).
  - destruct (truthy _); [|constructor]. constructor; [apply Hhash|constructor].
  - destruct (startswith (strip comment_line) "#") eqn:Hc.
    + apply startswith_hash in Hc as [r ->]. constructor; [|constructor].
      rewrite <- append_assoc. rewrite app_cons.
      apply not_incomplete_head; [|done..]. now apply blank_app.
    + constructor; [apply Hhash|constructor].
Qed.

Lemma array_block_not_incomplete indent var_name cs :
  blank indent -> is_identifier var_name ->
  Forall (fun l => match_incomplete l = None) (array_block indent var_name cs).
Proof.
  intros Hi Hv. unfold array_block. repeat apply Forall_app_2.
  - constructor; [|constructor; [|constructor]].
    + unfold MARKER. apply not_incomplete_head; done.
    + apply (array_open_not_incomplete _ indent var_name).
      apply array_open_shape_iff.
      exists " ", " ", NL. split; [reflexivity|done].
  - induction cs as [|c cs IH]; [constructor|]. simpl.
    apply Forall_app_2; [now apply inside_array_not_incomplete|done].
  - constructor; [|constructor]. apply not_incomplete_head; done.
Qed.

Lemma incomplete_groups line indent var_name :
  match_incomplete line = Some (indent, var_name) ->
  blank indent /\ is_identifier var_name.
Proof.
  intros (ws1 & ws2 & _ & Hi & Hv & _)
    %(proj1 (incomplete_shape_iff _ _ _)). done.
Qed.

(** What holds of the variables of the outer loop. *)
Lemma reachable_facts lines st :
  reachable lines st ->
  i st <= length lines
  /\ Forall (fun l => match_incomplete l = None) (new_lines st)
  /\ (modified st = true <-> printed st <> [])
  /\ (modified st = false -> new_lines st = take (i st) lines).
Proof.
  induction 1 as [|st st' Hr (Hb & Hall & Hm & Hu) Hlt Hbody].
  - split; [simpl; lia|]. split; [constructor|]. split; [done|].
    intros _. simpl. now rewrite take_0.
  - destruct (incomplete_loop_body_cases lines st Hlt) as (line & Hl & Hcase).
    destruct Hcase as
      [(indent & v & cs & Hmi & _ & _ & _ & Hle & Hb')|(Hmi & Hb')];
      rewrite Hb' in Hbody; injection Hbody as <-; cbn [i new_lines modified printed].
    + destruct (incomplete_groups _ _ _ Hmi) as [Hi Hv].
      split; [lia|]. split.
      { apply Forall_app_2; [done|]. now apply array_block_not_incomplete. }
      split; [|done]. split; [intros _; now destruct (printed st)|done].
    + split; [lia|]. split.
      { apply Forall_app_2; [done|]. now constructor. }
      split; [done|]. intros Hf.
      replace (i st + 1) with (S (i st)) by lia.
      rewrite (take_S_r _ _ _ Hl). f_equal. now apply Hu.
Qed.

(** Where no line is an incomplete assignment the pass copies. *)
Lemma reachable_quiet lines st :
  Forall (fun l => match_incomplete l = None) lines ->
  reachable lines st -> modified st = false.
Proof.
  intros Hall. induction 1 as [|st st' Hr IH Hlt Hbody]; [done|].
  destruct (incomplete_loop_body_cases lines st Hlt) as (line & Hl & Hcase).
  destruct Hcase as
    [(indent & v & cs & Hmi & _)|(Hmi & Hb')].
  - rewrite Forall_forall in Hall.
    rewrite (Hall line) in Hmi; [done|]. eapply list_elem_of_lookup_2; eauto.
  - rewrite Hb' in Hbody. now injection Hbody as <-.
Qed.

Lemma scan_twice (lines : list string) :
  exists st1 st2,
    scan lines = Ok st1
    /\ Forall (fun l => match_incomplete l = None) (new_lines st1)
    /\ scan (new_lines st1) = Ok st2
    /\ modified st2 = false
    /\ printed st2 = []
    /\ new_lines st2 = new_lines st1.
Proof.
  destruct (incomplete_scan_returns lines) as (st1 & Hs1 & Hr1 & Hi1).
  destruct (incomplete_scan_returns (new_lines st1)) as (st2 & Hs2 & Hr2 & Hi2).
  destruct (reachable_facts _ _ Hr1) as (_ & Hall & _).
  destruct (reachable_facts _ _ Hr2) as (_ & _ & Hm & Hu).
  pose proof (reachable_quiet _ _ Hall Hr2) as Hq.
  exists st1, st2. split; [done|]. split; [done|]. split; [done|].
  split; [done|]. split.
  - destruct (printed st2) eqn:Hp; [done|].
    assert (modified st2 = true) by (apply Hm; done). congruence.
  - rewrite (Hu Hq), Hi2. apply firstn_all.
Qed.

(** *** The lines the pass writes are complete lines *)

Lemma all_chars_drop p n s :
  all_chars p s = true -> all_chars p (drop_chars n s) = true.
Proof.
  revert s. induction n as [|n IH]; intros s; [now destruct s|].
  destruct s as [|c r]; [done|]. cbn [all_chars drop_chars].
  intros [_ Hr]%andb_true_iff. now apply IH.
Qed.

Lemma all_chars_take p n s :
  all_chars p s = true -> all_chars p (take_chars n s) = true.
Proof.
  revert s. induction n as [|n IH]; intros s; [now destruct s|].
  destruct s as [|c r]; [done|]. cbn [all_chars take_chars].
  intros [Hc Hr]%andb_true_iff. now rewrite Hc, IH.
Qed.

Lemma line_complete body :
  no_newline body = true -> complete (body +:+ NL).
Proof. intros Hb. now exists body. Qed.

Lemma inside_array_complete indent comment_line :
  no_newline indent = true ->
  complete comment_line \/ partial comment_line ->
  Forall complete (inside_array indent comment_line).
Proof.
  intros Hi Hc%strip_line. unfold inside_array.
  assert (forall x, no_newline x = true ->
            complete (indent +:+ "  # " +:+ x +:+ NL)) as Hhash.
  { intros x Hx. rewrite <- !append_assoc. apply line_complete.
    now rewrite !no_newline_app, Hi, Hx. }
  destruct (_ && _).
  - destruct (truthy _); [|constructor]. constructor; [|constructor].
    apply Hhash. unfold strip, slice.
    now apply all_chars_rstrip, all_chars_lstrip, all_chars_take,
      all_chars_drop.
  - destruct (startswith (strip comment_line) "#").
    + constructor; [|constructor]. rewrite <- !append_assoc.
      apply line_complete. now rewrite !no_newline_app, Hi, Hc.
    + constructor; [|constructor]. now apply Hhash.
Qed.

Lemma array_block_complete indent var_name cs :
  no_newline indent = true -> no_newline var_name = true ->
  Forall (fun c => complete c \/ partial c) cs ->
  Forall complete (array_block indent var_name cs).
Proof.
  intros Hi Hv Hcs. unfold array_block. repeat apply Forall_app_2.
  - constructor; [|constructor; [|constructor]].
    + rewrite <- append_assoc. apply line_complete.
      now rewrite no_newline_app, Hi.
    + rewrite <- !append_assoc. apply line_complete.
      now rewrite !no_newline_app, Hi, Hv.
  - induction Hcs as [|c cs Hc Hcs IH]; [constructor|]. simpl.
    apply Forall_app_2; [now apply inside_array_complete|done].
  - constructor; [|constructor]. rewrite <- append_assoc.
    apply line_complete. now rewrite no_newline_app, Hi.
Qed.

Lemma incomplete_no_newline line indent var_name :
  complete line \/ partial line ->
  match_incomplete line = Some (indent, var_name) ->
  no_newline indent = true /\ no_newline var_name = true.
Proof.
  intros Hl (ws1 & ws2 & Heq & _ & Hv & _)
    %(proj1 (incomplete_shape_iff _ _ _)).
  split; [|now apply identifier_no_newline].
  apply (prefix_no_newline _ _ _ Hl Heq).
  destruct Hv as (c & r & -> & _). now rewrite app_cons.
Qed.

Lemma incomplete_reachable_well_formed lines st :
  well_formed lines -> reachable lines st ->
  Forall complete (new_lines st)
  \/ (i st = length lines
      /\ exists front last,
           new_lines st = front ++ [last]
           /\ Forall complete front /\ partial last).
Proof.
  intros Hwf. induction 1 as [|st st' Hr IH Hlt Hbody]; [now left|].
  destruct IH as [IH|[Hi _]]; [|lia].
  destruct (incomplete_loop_body_cases lines st Hlt) as (line & Hl & Hcase).
  destruct (well_formed_lookup _ _ _ Hwf Hl) as [Hline Hlast].
  destruct Hcase as
    [(indent & v & cs & Hmi & Hcs & _ & _ & _ & Hb')|(Hmi & Hb')];
    rewrite Hb' in Hbody; injection Hbody as <-; cbn [i new_lines].
  - left. apply Forall_app_2; [done|].
    destruct (incomplete_no_newline _ _ _ Hline Hmi) as [Hi Hv].
    apply array_block_complete; [done..|].
    rewrite Forall_forall. intros c Hc. rewrite Hcs in Hc.
    apply list_elem_of_lookup in Hc as [k Hk].
    apply lookup_take_Some in Hk as [Hk _].
    rewrite lookup_drop in Hk.
    now apply (well_formed_lookup _ _ _ Hwf) in Hk as [Hk _].
  - destruct (decide (i st + 1 < length lines)) as [Hin|Hout].
    + left. apply Forall_app_2; [done|]. constructor; [auto|done].
    + destruct Hline as [Hc|Hp].
      * left. apply Forall_app_2; [done|]. now constructor.
      * right. split; [lia|]. now exists (new_lines st), line.
Qed.

Lemma scan_well_formed text st :
  scan (readlines text) = Ok st -> well_formed (new_lines st).
Proof.
  intros Hs. destruct (incomplete_scan_returns (readlines text)) as (st' & Hs' & Hr & _).
  rewrite Hs in Hs'. injection Hs' as <-.
  destruct (incomplete_reachable_well_formed _ _ (readlines_well_formed text) Hr)
    as [Hall|(_ & front & last & Heq & Hf & Hp)]; [now left|].
  right. now exists front, last.
Qed.

(** X7. The pass is idempotent on every input.  None of the lines it
    writes is an incomplete assignment, so a second scan of its output
    fires nothing, prints nothing and returns the same lines; and for
    every file that can be read and written, a second call of the script
    reads back what the first one wrote, finds nothing, returns [False]
    and leaves the disk as the first call left it. *)
Theorem incomplete_pass_idempotent :
  (forall lines : list string,
      exists st1 st2,
        scan lines = Ok st1
        /\ Forall (fun l => match_incomplete l = None) (new_lines st1)
        /\ scan (new_lines st1) = Ok st2
        /\ modified st2 = false
        /\ printed st2 = []
        /\ new_lines st2 = new_lines st1)
  /\ (forall (file_path : string) (w : world) (f : file) (content : string),
      disk w !! file_path = Some f ->
      text f = Some content ->
      writable f = true ->
      exists b w1 w2,
        fix_incomplete_assignments_in_file file_path w = Ok (b, w1)
        /\ fix_incomplete_assignments_in_file file_path w1 = Ok (false, w2)
        /\ disk w2 = disk w1
        /\ stdout w2 = stdout w1 ++ [NothingFound file_path]).
Proof.
  split; [apply scan_twice|].
  intros file_path w f content Hf Ht Hw.
  destruct (scan_twice (readlines content))
    as (st1 & st2 & Hs1 & _ & Hs2 & Hm2 & Hp2 & Hn2).
  unfold fix_incomplete_assignments_in_file at 1. rewrite Hf, Ht, Hs1.
  destruct (modified st1) eqn:Hm1.
  - rewrite Hw. eexists _, _, _. split; [done|].
    unfold fix_incomplete_assignments_in_file. cbn [disk].
    rewrite lookup_insert_eq. cbn [text writable].
    rewrite (readlines_writelines _ (scan_well_formed _ _ Hs1)), Hs2, Hm2, Hp2.
    split; [done|]. split; [done|]. cbn [print stdout]. now rewrite app_nil_r.
  - assert (printed st1 = []) as Hp1.
    { destruct (incomplete_scan_returns (readlines content)) as (st & Hs & Hr & _).
      rewrite Hs1 in Hs. injection Hs as <-.
      destruct (reachable_facts _ _ Hr) as (_ & _ & Hm & _).
      destruct (printed st1); [done|].
      assert (modified st1 = true) by (apply Hm; done). congruence. }
    eexists _, _, _. split; [done|].
    unfold fix_incomplete_assignments_in_file. cbn [print disk].
    rewrite Hf, Ht, Hs1, Hm1, Hp1. split; [done|]. split; [done|].
    unfold print. cbn [stdout disk]. now rewrite !app_nil_r.
Qed.

Lemma incomplete_idempotent_witness :
  exists b w1 w2,
    fix_incomplete_assignments_in_file "a.gni"
      {| disk := {[ "a.gni" := {| text := Some ("x =" +:+ NL +:+ "# [ 1 ]" +:+ NL);
                                  writable := true |} ]};
         stdout := [] |} = Ok (b, w1)
    /\ fix_incomplete_assignments_in_file "a.gni" w1 = Ok (false, w2)
    /\ disk w2 = disk w1
    /\ stdout w2 = stdout w1 ++ [NothingFound "a.gni"].
Proof.
  apply (proj2 incomplete_pass_idempotent "a.gni" _
           {| text := Some ("x =" +:+ NL +:+ "# [ 1 ]" +:+ NL);
              writable := true |} ("x =" +:+ NL +:+ "# [ 1 ]" +:+ NL));
    reflexivity.
Defined.

End IncompleteFacts.

(** ** [fix_incomplete_assignments.py]: an array that was commented out
    whole *)

Module BracketFacts.
Import PyStr Re Scanner Files Notions Lines Incomplete.
Import StrFacts PatternFacts ShapeFacts LinesFacts.

Lemma endswith_app a p : endswith (a +:+ p) p = true.
Proof.
  induction a as [|c a IH].
  - rewrite app_nil. destruct p; cbn [endswith]; now rewrite String.eqb_refl.
  - rewrite app_cons. cbn [endswith]. rewrite IH. apply orb_true_r.
Qed.

Lemma startswith_app p r : startswith (p +:+ r) p = true.
Proof.
  induction p as [|c p IH]; [done|]. rewrite app_cons. cbn [startswith].
  now rewrite Ascii.eqb_refl.
Qed.

Lemma string_length_app a b :
  String.length (a +:+ b) = String.length a + String.length b.
Proof.
  induction a as [|c a IH]; [now rewrite app_nil|].
  rewrite app_cons. cbn [String.length]. now rewrite IH.
Qed.

Lemma take_chars_app a b : take_chars (String.length a) (a +:+ b) = a.
Proof.
  induction a as [|c a IH]; [rewrite app_nil; now destruct b|].
  rewrite app_cons. cbn [String.length take_chars]. now rewrite IH.
Qed.

Lemma slice_bracket body c :
  slice 3 2 ("# [" +:+ body +:+ String c "]") = body.
Proof.
  unfold slice. rewrite !string_length_app.
  change (drop_chars 3 ("# [" +:+ body +:+ String c "]"))
    with (body +:+ String c "]").
  replace (String.length "# [" + (String.length body + String.length (String c "]")) - 2 - 3)
    with (String.length body) by (cbn [String.length]; lia).
  apply take_chars_app.
Qed.

(** X8. A comment line that holds a whole array, [# [ ... ]] once
    stripped, is written inside the new array without the character in
    front of its closing bracket, whatever that character is: the slice
    of line 53 ends two characters before the end.  What is written is
    the text between the brackets less that character, stripped, and
    nothing when this is empty; [# []] itself gives nothing. *)
Theorem commented_array_loses_a_character :
  (forall indent comment_line body c,
      strip comment_line = "# [" +:+ body +:+ String c "]" ->
      inside_array indent comment_line =
      if truthy (strip body)
      then [indent +:+ "  # " +:+ strip body +:+ NL]
      else [])
  /\ (forall indent comment_line,
      strip comment_line = "# []" ->
      inside_array indent comment_line = []).
Proof.
  split.
  - intros indent comment_line body c Hs. unfold inside_array.
    rewrite Hs, startswith_app.
    replace (endswith ("# [" +:+ body +:+ String c "]") "]") with true.
    + cbn [andb]. now rewrite slice_bracket.
    + symmetry. change (String c "]") with (String c EmptyString +:+ "]").
      rewrite <- !append_assoc. apply endswith_app.
  - intros indent comment_line Hs. unfold inside_array. now rewrite Hs.
Qed.

Lemma commented_array_witness :
  inside_array "  " ("  # [" +:+ DQ +:+ "a" +:+ DQ +:+ "]" +:+ NL) =
  ["  " +:+ "  # " +:+ (DQ +:+ "a") +:+ NL].
Proof.
  apply (proj1 commented_array_loses_a_character "  "
           ("  # [" +:+ DQ +:+ "a" +:+ DQ +:+ "]" +:+ NL)
           (DQ +:+ "a") "034"%char).
  reflexivity.
Defined.

End BracketFacts.

(** ** The two scripts one after the other

    [fix_incomplete_assignments.py] writes the marker comment and an
    empty array for an incomplete assignment; when the value of the
    assignment was left on the next line, the four lines are what
    Pattern 2 of [fix_malformed_assignments.py] looks for. *)

Module TwoPasses.
Import PyStr Re Scanner Files Notions Lines.
Import StrFacts PatternFacts ShapeFacts ScannerFacts Visits LinesFacts.
Import IncompleteFacts.

(** *** The second script: what Pattern 2 writes stays *)

Lemma dangling_line_not_incomplete d :
  dangling_ok (strip d) = true -> match_incomplete d = None.
Proof.
  intros Hd. destruct (match_incomplete d) as [[ind v]|] eqn:Hi; [|done].
  apply incomplete_is_assignment in Hi as [Hi _].
  unfold dangling_ok in Hd. rewrite Hi, andb_false_r in Hd. done.
Qed.

Lemma pattern2_output_stays lines m line opener closer l3 indent var_name st :
  lines !! m = Some line ->
  startswith (strip line) MARKER = true ->
  lines !! (m + 1) = Some opener ->
  match_array_open opener = Some (indent, var_name) ->
  lines !! (m + 2) = Some closer ->
  strip closer = "]" ->
  lines !! (m + 3) = Some l3 ->
  dangling_ok (strip l3) = true ->
  reachable lines st ->
  i st <= m
  \/ exists front back,
       new_lines st =
       front ++ [assignment indent var_name (value_commented (strip l3))]
             ++ back
       /\ (i st = m + 4 \/ back <> []).
Proof.
  intros Hl Hm Ho Hmo Hc Hs Hl3 Hd.
  pose proof (marker_not_taken _ _ _ Hl Hm) as Hnt.
  induction 1 as [|st st' Hr IH Hlt Hbody]; [left; cbn; lia|].
  destruct IH as [Hle|(front & back & Hn & Hib)].
  - destruct (decide (i st = m)) as [Heq|Hne].
    + right. unfold loop_body in Hbody. rewrite Heq, Hl in Hbody.
      assert (pattern1 lines m line = None) as Hp1.
      { unfold pattern1. now rewrite (marker_not_array_open _ Hm). }
      rewrite Hp1, (pattern2_fires _ _ _ _ _ _ _ _ Hm Ho Hmo Hc Hs Hl3 Hd)
        in Hbody.
      injection Hbody as <-. cbn [i new_lines].
      exists (new_lines st), []. split; [done|left; lia].
    + left.
      destruct (loop_body_cases _ _ _ Hbody) as (cur & Hcur & Hcase).
      destruct (Hnt (i st) cur "" "" Hcur) as [_ _].
      destruct Hcase as [(out & v & Hp & ->)|[(out & v & Hp & ->)
        |[(out & v & popped & Hp & _ & ->)|(_ & _ & _ & ->)]]]; cbn [i].
      * destruct (Hnt (i st) cur out v Hcur) as [H1 _].
        specialize (H1 Hp). lia.
      * destruct (Hnt (i st) cur out v Hcur) as [_ H2].
        specialize (H2 Hp). lia.
      * lia.
      * lia.
  - right.
    destruct (loop_body_cases _ _ _ Hbody) as (cur & Hcur & Hcase).
    destruct Hcase as [(out & v & Hp & ->)|[(out & v & Hp & ->)
      |[(out & v & popped & Hp & Hpop & ->)|(_ & _ & _ & ->)]]];
      cbn [i new_lines].
    + exists front, (back ++ [out]). rewrite Hn, <- !app_assoc.
      split; [done|]. right. now destruct back.
    + exists front, (back ++ [out]). rewrite Hn, <- !app_assoc.
      split; [done|]. right. now destruct back.
    + assert (back <> []) as Hback.
      { destruct Hib as [Hi|Hb]; [|done]. exfalso.
        apply pattern3_inv in Hp
          as (ind & before & _ & _ & Hbefore & Hinc & _).
        replace (i st - 1) with (m + 3) in Hbefore by lia.
        rewrite Hl3 in Hbefore. injection Hbefore as <-.
        now rewrite (dangling_not_incomplete _ Hd) in Hinc. }
      destruct (exists_last Hback) as (back' & x & ->).
      rewrite Hn in Hpop.
      replace (front ++ [assignment indent var_name
                           (value_commented (strip l3))] ++ back' ++ [x])
        with ((front ++ [assignment indent var_name
                           (value_commented (strip l3))] ++ back') ++ [x])
        in Hpop by now rewrite <- !app_assoc.
      rewrite pop_snoc in Hpop. injection Hpop as <-.
      exists front, (back' ++ [out]). rewrite <- !app_assoc.
      split; [done|]. right. now destruct back'.
    + exists front, (back ++ [cur]). rewrite Hn, <- !app_assoc.
      split; [done|]. right. now destruct back.
Qed.

(** *** The first script: the block it writes, and the line after it *)

Lemma incomplete_not_comment l indent var_name :
  match_incomplete l = Some (indent, var_name) ->
  startswith (strip l) "#" = false.
Proof.
  intros Hi%match_incomplete_strip.
  destruct (startswith (strip l) "#") eqn:Hc; [|done].
  apply startswith_hash in Hc as [r Hr]. rewrite Hr in Hi.
  pose proof (not_incomplete_head EmptyString "#" r eq_refl eq_refl eq_refl)
    as Hn.
  change (EmptyString +:+ String "#" r) with (String "#" r) in Hn.
  congruence.
Qed.

Lemma dangling_not_comment d :
  dangling_ok (strip d) = true -> startswith (strip d) "#" = false.
Proof.
  unfold dangling_ok. destruct (startswith (strip d) "#"); [|done].
  now rewrite andb_false_r.
Qed.

Lemma block_written lines k l d indent var_name st :
  lines !! k = Some l ->
  match_incomplete l = Some (indent, var_name) ->
  lines !! (k + 1) = Some d ->
  dangling_ok (strip d) = true ->
  Incomplete.reachable lines st ->
  Incomplete.i st <= k
  \/ (Incomplete.i st = k + 1
      /\ exists front,
           Incomplete.new_lines st =
           front ++ Incomplete.array_block indent var_name [])
  \/ (k + 2 <= Incomplete.i st
      /\ exists front back,
           Incomplete.new_lines st =
           front ++ Incomplete.array_block indent var_name [] ++ d :: back).
Proof.
  intros Hl Hi Hd Hok.
  pose proof (incomplete_not_comment _ _ _ Hi) as Hlc.
  pose proof (dangling_not_comment _ Hok) as Hdc.
  induction 1 as [|st st' Hr IH Hlt Hbody]; [left; cbn; lia|].
  destruct (incomplete_loop_body_cases lines st Hlt) as (cur & Hcur & Hcase).
  assert (forall cs : list string,
            cs = take (length cs) (drop (Incomplete.i st + 1) lines) ->
            Forall (fun l => startswith (strip l) "#" = true) cs ->
            forall n x, lines !! n = Some x ->
              startswith (strip x) "#" = false ->
              Incomplete.i st + 1 <= n -> n - (Incomplete.i st + 1) < length cs
              -> False) as Hskip.
  { intros cs Hcs Hall n x Hx Hxc Hge Hlt'.
    assert (cs !! (n - (Incomplete.i st + 1)) = Some x) as Hin.
    { rewrite Hcs, lookup_take_lt by done. rewrite lookup_drop.
      now replace (Incomplete.i st + 1 + (n - (Incomplete.i st + 1)))
        with n by lia. }
    rewrite Forall_forall in Hall.
    apply list_elem_of_lookup_2, Hall in Hin. congruence. }
  destruct IH as [Hle|[(Hik & front & Hn)|(Hik & front & back & Hn)]].
  - destruct (decide (Incomplete.i st = k)) as [Hk|Hne].
    + right. left. rewrite Hk in *. rewrite Hl in Hcur. injection Hcur as <-.
      destruct Hcase as
        [(ind & v & cs & Hmi & Hcs & Hall & _ & _ & Hb')|(Hmi & _)];
        [|congruence].
      rewrite Hi in Hmi. injection Hmi as <- <-.
      assert (length cs = 0) as Hz.
      { destruct (decide (length cs = 0)) as [|Hpos]; [done|]. exfalso.
        apply (Hskip cs Hcs Hall (k + 1) d Hd Hdc); lia. }
      destruct cs; [|done].
      rewrite Hb' in Hbody. injection Hbody as <-.
      cbn [Incomplete.i Incomplete.new_lines length].
      split; [lia|]. now exists (Incomplete.new_lines st).
    + left. destruct Hcase as
        [(ind & v & cs & Hmi & Hcs & Hall & _ & _ & Hb')|(Hmi & Hb')];
        rewrite Hb' in Hbody; injection Hbody as <-; cbn [Incomplete.i];
        [|lia].
      destruct (decide (Incomplete.i st + 1 + length cs <= k)); [done|].
      exfalso. apply (Hskip cs Hcs Hall k l Hl Hlc); lia.
  - right. right. rewrite Hik in Hcur. rewrite Hd in Hcur.
    injection Hcur as <-.
    destruct Hcase as
      [(ind & v & cs & Hmi & _)|(Hmi & Hb')].
    { now rewrite (dangling_line_not_incomplete _ Hok) in Hmi. }
    rewrite Hb' in Hbody. injection Hbody as <-.
    cbn [Incomplete.i Incomplete.new_lines]. split; [lia|].
    exists front, []. now rewrite Hn, <- !app_assoc.
  - right. right. destruct Hcase as
      [(ind & v & cs & Hmi & Hcs & Hall & _ & _ & Hb')|(Hmi & Hb')];
      rewrite Hb' in Hbody; injection Hbody as <-;
      cbn [Incomplete.i Incomplete.new_lines]; (split; [lia|]).
    + exists front, (back ++ Incomplete.array_block ind v cs).
      rewrite Hn, <- !app_assoc. now rewrite <- app_comm_cons.
    + exists front, (back ++ [cur]).
      rewrite Hn, <- !app_assoc. now rewrite <- app_comm_cons.
Qed.

Lemma strip_indented indent s :
  blank indent -> stops isspace s -> rstrip s = s ->
  strip (indent +:+ s +:+ NL) = s.
Proof.
  intros Hi Hs Hr. unfold strip.
  rewrite <- append_assoc, lstrip_app_blank by done.
  now rewrite lstrip_spec.
Qed.

(** X9. The two scripts compose.  Whenever a file has an incomplete
    assignment [name =] directly followed by a line that passes the test
    on dangling values, [fix_incomplete_assignments.py] writes the marker
    comment, [name = [], []] and then that line, and
    [fix_malformed_assignments.py] run on the result writes the one
    assignment [name = value] of Pattern 2 for these four lines, and
    keeps it to the end. *)
Theorem incomplete_then_malformed :
  forall (lines : list string) k l d indent var_name,
    lines !! k = Some l ->
    match_incomplete l = Some (indent, var_name) ->
    lines !! (k + 1) = Some d ->
    dangling_ok (strip d) = true ->
    exists st1 st2 front back front' back',
      Incomplete.scan lines = Ok st1
      /\ Incomplete.new_lines st1 =
         front ++ [indent +:+ MARKER +:+ NL;
                   indent +:+ var_name +:+ " = [" +:+ NL;
                   indent +:+ "]" +:+ NL;
                   d] ++ back
      /\ scan (Incomplete.new_lines st1) = Ok st2
      /\ new_lines st2 =
         front' ++ [indent +:+ var_name +:+ " = "
                    +:+ value_commented (strip d) +:+ NL] ++ back'.
Proof.
  intros lines k l d indent var_name Hl Hi Hd Hok.
  destruct (incomplete_scan_returns lines) as (st1 & Hs1 & Hr1 & Hi1).
  destruct (scan_returns (Incomplete.new_lines st1)) as (st2 & Hs2 & Hr2 & Hi2).
  pose proof (lookup_lt_Some _ _ _ Hd) as Hlen.
  destruct (block_written _ _ _ _ _ _ _ Hl Hi Hd Hok Hr1)
    as [Hle|[(Hik & _)|(_ & front & back & Hn)]]; [lia..|].
  destruct (incomplete_groups _ _ _ Hi) as [Hind Hv].
  set (mk := indent +:+ MARKER +:+ NL) in *.
  set (op := indent +:+ var_name +:+ " = [" +:+ NL) in *.
  set (cl := indent +:+ "]" +:+ NL) in *.
  assert (Incomplete.new_lines st1 = front ++ [mk; op; cl; d] ++ back) as Hn'.
  { rewrite Hn. reflexivity. }
  assert (forall n x, [mk; op; cl; d] !! n = Some x ->
            Incomplete.new_lines st1 !! (length front + n) = Some x) as Hat.
  { intros n x Hx. rewrite Hn', lookup_app_r by lia.
    replace (length front + n - length front) with n by lia.
    now apply lookup_app_l_Some. }
  pose proof (Hat 0 mk eq_refl) as H0. rewrite Nat.add_0_r in H0.
  destruct (pattern2_output_stays _ (length front) mk op cl d indent var_name
              st2 H0) as [Hle|(front' & back' & Hout & _)].
  - unfold mk. now rewrite strip_indented.
  - apply (Hat 1 op eq_refl).
  - apply array_open_shape_iff. exists " ", " ", NL.
    split; [reflexivity|done].
  - apply (Hat 2 cl eq_refl).
  - unfold cl. now rewrite strip_indented.
  - apply (Hat 3 d eq_refl).
  - done.
  - done.
  - exfalso. rewrite Hi2, Hn' in Hle. rewrite length_app in Hle.
    cbn [length app] in Hle. lia.
  - exists st1, st2, front, back, front', back'. done.
Qed.

Lemma incomplete_then_malformed_witness :
  exists st1 st2 front back front' back',
    Incomplete.scan ["x =" +:+ NL; "foo" +:+ NL] = Ok st1
    /\ Incomplete.new_lines st1 =
       front ++ [EmptyString +:+ MARKER +:+ NL;
                 EmptyString +:+ "x" +:+ " = [" +:+ NL;
                 EmptyString +:+ "]" +:+ NL;
                 "foo" +:+ NL] ++ back
    /\ scan (Incomplete.new_lines st1) = Ok st2
    /\ new_lines st2 =
       front' ++ [EmptyString +:+ "x" +:+ " = "
                  +:+ value_commented (strip ("foo" +:+ NL)) +:+ NL] ++ back'.
Proof.
  apply (incomplete_then_malformed ["x =" +:+ NL; "foo" +:+ NL] 0
           ("x =" +:+ NL) ("foo" +:+ NL) EmptyString "x");
    reflexivity.
Defined.

End TwoPasses.

(** ** [find_gni_files] and [main] *)

Module WalkFacts.
Import PyStr Scanner Files Walk.
Import StrFacts LinesFacts FileFacts.

Lemma node_induction (P : node -> Prop) :
  P RegularFile ->
  (forall entries, Forall (fun e => P e.2) entries -> P (Directory entries)) ->
  forall n, P n.
Proof.
  intros Hfile Hdir. fix IH 1. intros [|entries]; [exact Hfile|].
  apply Hdir. induction entries as [|[name sub] entries IHe];
    constructor; [apply IH|exact IHe].
Qed.

Lemma for_each_name_spec root files gni_files :
  for_each_name root files gni_files =
  gni_files
  ++ map (join root) (filter (fun f => Incomplete.endswith f ".gni") files).
Proof.
  revert gni_files. induction files as [|file rest IH]; intros acc.
  - cbn. now rewrite app_nil_r.
  - cbn [for_each_name]. rewrite IH, filter_cons.
    destruct (Incomplete.endswith file ".gni"); cbn.
    + now rewrite <- app_assoc.
    + done.
Qed.

Lemma for_each_triple_spec triples gni_files :
  for_each_triple triples gni_files =
  gni_files
  ++ flat_map (fun t => map (join t.1.1)
                 (filter (fun f => Incomplete.endswith f ".gni") t.2))
       triples.
Proof.
  revert gni_files. induction triples as [|[[root ds] files] rest IH];
    intros acc.
  - cbn. now rewrite app_nil_r.
  - cbn [for_each_triple flat_map]. rewrite IH, for_each_name_spec.
    now rewrite <- app_assoc.
Qed.

Lemma nondirs_spec entries file :
  file ∈ nondirs entries <-> (file, RegularFile) ∈ entries.
Proof.
  unfold nondirs. rewrite list_elem_of_fmap. split.
  - intros ([name [|sub]] & -> & [Hd He]%list_elem_of_filter); done.
  - intros He. exists (file, RegularFile). split; [done|].
    now apply list_elem_of_filter.
Qed.

Lemma walk_spec n :
  forall top root file,
    (exists ds files, (root, ds, files) ∈ walk top n /\ file ∈ files)
    <-> holds top n root file.
Proof.
  induction n as [|entries IH] using node_induction; intros top root file.
  - split; [intros (ds & files & Hin & _); cbn in Hin; now inversion Hin|].
    inversion 1.
  - cbn [walk].
    set (walk_dirs := fix walk_dirs (es : list (string * node)) :=
           match es with
           | [] => []
           | (name, sub) :: es' =>
               match sub with
               | Directory _ => walk (join top name) sub ++ walk_dirs es'
               | RegularFile => walk_dirs es'
               end
           end).
    assert (forall es t,
              t ∈ walk_dirs es <->
              exists name sub, (name, Directory sub) ∈ es
                /\ t ∈ walk (join top name) (Directory sub)) as Hdirs.
    { induction es as [|[name [|sub]] es IHe]; intros t; cbn [walk_dirs].
      - split; [inversion 1|]. intros (? & ? & H & _). inversion H.
      - rewrite IHe. split.
        + intros (nm & sb & Hin & Ht). exists nm, sb.
          split; [now right|done].
        + intros (nm & sb & Hin & Ht). exists nm, sb.
          apply elem_of_cons in Hin as [[=]|Hin]. done.
      - rewrite elem_of_app, IHe. split.
        + intros [Ht|(nm & sb & Hin & Ht)].
          * exists name, sub. split; [now left|done].
          * exists nm, sb. split; [now right|done].
        + intros (nm & sb & Hin & Ht).
          apply elem_of_cons in Hin as [[= -> ->]|Hin]; [now left|].
          right. now exists nm, sb. }
    split.
    + intros (ds & files & Hin & Hf).
      apply elem_of_cons in Hin as [[= -> -> ->]|Hin].
      * apply holds_here. now apply nondirs_spec.
      * apply Hdirs in Hin as (name & sub & He & Ht).
        apply (holds_below _ _ name sub); [done|].
        rewrite Forall_forall in IH.
        apply (IH (name, Directory sub) He). eauto.
    + inversion 1 as [? ? ? He|? ? name sub ? ? He Hh]; subst.
      * exists (dirs entries), (nondirs entries).
        split; [now left|]. now apply nondirs_spec.
      * rewrite Forall_forall in IH.
        apply (IH (name, Directory sub) He) in Hh
          as (ds & files & Hin & Hf).
        exists ds, files. split; [|done]. right. apply Hdirs. eauto.
Qed.

Lemma endswith_suffix a b p :
  Incomplete.endswith b p = true -> Incomplete.endswith (a +:+ b) p = true.
Proof.
  intros Hb. induction a as [|c a IH]; [now rewrite ShapeFacts.app_nil|].
  rewrite ShapeFacts.app_cons. cbn [Incomplete.endswith]. rewrite IH.
  apply orb_true_r.
Qed.

Lemma join_endswith root file p :
  Incomplete.endswith file p = true ->
  Incomplete.endswith (join root file) p = true.
Proof.
  intros Hf. unfold join. destruct (startswith file "/"); [done|].
  destruct (_ || _); repeat apply endswith_suffix; done.
Qed.

Lemma find_gni_files_spec directory top path :
  path ∈ find_gni_files directory top
  <-> exists root file,
        holds directory top root file
        /\ Incomplete.endswith file ".gni" = true
        /\ path = join root file.
Proof.
  unfold find_gni_files.
  rewrite for_each_triple_spec, app_nil_l, list_elem_of_In, in_flat_map.
  split.
  - intros ([[root ds] files] & Ht%list_elem_of_In & Hp%list_elem_of_In).
    cbn [fst snd] in Hp.
    apply list_elem_of_fmap in Hp
      as (file & -> & [Hg Hf]%list_elem_of_filter).
    exists root, file.
    split; [|split; [now destruct (Incomplete.endswith _ _)|done]].
    apply walk_spec. eauto.
  - intros (root & file & (ds & files & Ht & Hf)%walk_spec & Hg & ->).
    exists (root, ds, files). split; [now apply list_elem_of_In|].
    apply list_elem_of_In. cbn [fst snd].
    apply list_elem_of_fmap. exists file. split; [done|].
    apply list_elem_of_filter. split; [now rewrite Hg|done].
Qed.

Lemma find_gni_files_endswith directory top path :
  path ∈ find_gni_files directory top ->
  Incomplete.endswith path ".gni" = true.
Proof.
  intros (root & file & _ & Hg & ->)%find_gni_files_spec.
  now apply join_endswith.
Qed.

(** X10. [find_gni_files] returns the files of the tree whose name ends
    with [.gni], and only those: a path is in the list exactly when the
    tree holds, in a directory the walk calls [root], an entry [file]
    that is no directory and ends with [.gni], and the path is
    [os.path.join(root, file)].  Every path of the list ends with [.gni],
    and a [directory] that names a file gives the empty list. *)
Theorem find_gni_files_finds_the_gni_files :
  (forall directory top path,
      path ∈ find_gni_files directory top
      <-> exists root file,
            holds directory top root file
            /\ Incomplete.endswith file ".gni" = true
            /\ path = join root file)
  /\ (forall directory top path,
      path ∈ find_gni_files directory top ->
      Incomplete.endswith path ".gni" = true)
  /\ (forall directory, find_gni_files directory RegularFile = []).
Proof.
  split; [|split].
  - apply find_gni_files_spec.
  - apply find_gni_files_endswith.
  - done.
Qed.

Lemma find_gni_files_witness :
  "src/a.gni"
    ∈ find_gni_files "src"
        (Directory [("a.gni", RegularFile); ("b.txt", RegularFile)])
  /\ Incomplete.endswith "src/a.gni" ".gni" = true.
Proof.
  split.
  - apply (proj1 find_gni_files_finds_the_gni_files). exists "src", "a.gni".
    split; [|done]. apply holds_here. left.
  - apply (proj1 (proj2 find_gni_files_finds_the_gni_files) "src"
             (Directory [("a.gni", RegularFile); ("b.txt", RegularFile)])).
    apply (proj1 find_gni_files_finds_the_gni_files). exists "src", "a.gni".
    split; [|done]. apply holds_here. left.
Defined.

(** *** What a run leaves alone *)





End WalkFacts.

(** ** [main] of [fix_incomplete_assignments.py] *)

Module IncompleteScriptFacts.
Import PyStr Scanner Incomplete IncompleteScript.
Import IncompleteFacts WalkFacts.







End IncompleteScriptFacts.
